(** * PeerAdapter: the peer-connection negotiation adapter

    A shallow embedding of [libs/core/adapter/src/lib/peer.adapter.ts].

    The adapter owns one [RTCPeerConnection] and forwards every command to
    it.  The connection belongs to the browser, so it enters this
    development as a parameter: a record [Engine] of the operations the
    adapter calls, each written as a state-passing function on the
    connection.  Promise chains become a small error-and-state monad that
    also records the engine calls in the order they are made; the three
    observables become listener tables and an emission log. *)

From Stdlib Require Import List String Ascii Bool Arith Lia.
Import ListNotations.
Open Scope string_scope.
Open Scope list_scope.

Set Implicit Arguments.

(** ** DOM values the adapter handles *)

Inductive RTCSdpType := Offer | Answer | Pranswer | Rollback.

Record RTCSessionDescription := mkDescription {
  sd_type : RTCSdpType;
  sd_sdp : string
}.

Record RTCIceCandidate := mkCandidate {
  candidate : string;
  sdpMid : option string;
  sdpMLineIndex : option nat;
  usernameFragment : option string
}.

Inductive RTCSignalingState :=
| stable
| have_local_offer
| have_remote_offer
| have_local_pranswer
| have_remote_pranswer
| closed.

Record RTCOfferOptions := mkOfferOptions {
  iceRestart : bool
}.

Record RTCDataChannelInit := mkChannelInit {
  ordered : bool;
  negotiated : bool;
  id : option nat
}.

Record RTCDataChannel := mkChannel {
  dc_label : string;
  dc_id : nat
}.

Record PeerConfig := mkConfig {
  iceServers : list string
}.

Record MediaStreamTrack := mkTrack {
  track_kind : string;
  track_id : nat
}.

(** A [MediaStream] object is the list of tracks added to it so far. *)
Definition MediaStream := list MediaStreamTrack.

Inductive DOMException :=
| TypeError
| InvalidStateError
| InvalidAccessError
| InvalidModificationError
| OperationError.

(** ** Results *)

(** What an engine operation hands back: a value, or the exception it
    raises (for a promise-returning operation, the rejection reason). *)
Inductive Res (A : Type) :=
| Ok (a : A)
| Err (e : DOMException).
Arguments Ok {A} a.
Arguments Err {A} e.

(** What the caller of an adapter method observes.  A method that builds a
    promise settles it ([Resolved] or [Rejected]); a synchronous method
    returns or throws. *)
Inductive Outcome (A : Type) :=
| Returned (a : A)
| Thrown (e : DOMException)
| Resolved (a : A)
| Rejected (e : DOMException).
Arguments Returned {A} a.
Arguments Thrown {A} e.
Arguments Resolved {A} a.
Arguments Rejected {A} e.

Definition succeeded {A} (o : Outcome A) : bool :=
  match o with
  | Returned _ | Resolved _ => true
  | Thrown _ | Rejected _ => false
  end.

Definition failed {A} (o : Outcome A) : bool := negb (succeeded o).

(** ** The transport engine, as the adapter sees it *)

(** One field per member of [RTCPeerConnection] (and per DOM constructor)
    that the adapter uses.  [PC] is the state of one connection object. *)
Record Engine := mkEngine {
  PC : Type;
  new_RTCPeerConnection : PeerConfig -> Res PC;
  pc_createOffer :
    option RTCOfferOptions -> PC -> Res RTCSessionDescription * PC;
  pc_createAnswer : PC -> Res RTCSessionDescription * PC;
  pc_setLocalDescription : RTCSessionDescription -> PC -> Res unit * PC;
  pc_setRemoteDescription :
    option RTCSessionDescription -> PC -> Res unit * PC;
  pc_addIceCandidate : RTCIceCandidate -> PC -> Res unit * PC;
  pc_createDataChannel :
    string -> option RTCDataChannelInit -> PC -> Res RTCDataChannel * PC;
  pc_close : PC -> PC;
  pc_localDescription : PC -> option RTCSessionDescription;
  pc_signalingState : PC -> RTCSignalingState;
  new_RTCSessionDescription :
    option RTCSessionDescription -> Res RTCSessionDescription;
  new_RTCIceCandidate : RTCIceCandidate -> Res RTCIceCandidate
}.

(** The engine calls an adapter method makes, in the order it makes them. *)
Inductive Call :=
| call_createOffer (options : option RTCOfferOptions)
| call_createAnswer
| call_setLocalDescription (sdp : RTCSessionDescription)
| call_setRemoteDescription (description : option RTCSessionDescription)
| call_addIceCandidate (c : RTCIceCandidate)
| call_createDataChannel (label : string) (options : option RTCDataChannelInit)
| call_close.

(** ** Promise chains *)

Module Chain.

(** A chain of [.then] steps over a connection of type [C]: it threads
    the connection, stops at the first failure, and logs its calls. *)
Definition t (C A : Type) : Type := C -> Res A * C * list Call.

Definition bind {C A B} (m : t C A) (k : A -> t C B) : t C B :=
  fun c =>
    match m c with
    | (Ok a, c1, l1) =>
        match k a c1 with
        | (r, c2, l2) => (r, c2, l1 ++ l2)
        end
    | (Err e, c1, l1) => (Err e, c1, l1)
    end.

(** One engine operation, logged as [what]. *)
Definition call {C A} (what : Call) (op : C -> Res A * C) : t C A :=
  fun c => match op c with (r, c1) => (r, c1, [what]) end.

(** A property read off the connection. *)
Definition get {C A} (f : C -> A) : t C A := fun c => (Ok (f c), c, []).

End Chain.

Notation "x <- m ;; k" := (Chain.bind m (fun x => k))
  (at level 61, m at next level, right associativity).

(** ** Feeds *)

Definition SubscriberId := nat.

Inductive EventType := signalingstatechange | icecandidate | track.

Definition EventType_eqb (s t : EventType) : bool :=
  match s, t with
  | signalingstatechange, signalingstatechange
  | icecandidate, icecandidate
  | track, track => true
  | _, _ => false
  end.

(** A reference to a [MediaStream] object: one of the engine's own, or the
    one the adapter keeps in [inboundStream]. *)
Inductive StreamRef :=
| remoteStream (id : nat)
| inboundStreamRef.

(** The events the engine fires at the connection.  The [candidate] of an
    [icecandidate] event is typed [RTCIceCandidate | null]: the engine
    fires it with [null] once gathering is over.  A [track] event may come
    without its [streams] member. *)
Inductive Event :=
| ev_signalingstatechange
| ev_icecandidate (candidate : option RTCIceCandidate)
| ev_track (track : MediaStreamTrack) (streams : option (list StreamRef)).

Definition event_type (ev : Event) : EventType :=
  match ev with
  | ev_signalingstatechange => signalingstatechange
  | ev_icecandidate _ => icecandidate
  | ev_track _ _ => track
  end.

(** What [subscriber.next] is given.  [the_connection] is the connection
    object itself (the event's [target]). *)
Inductive Value :=
| the_connection
| signaling_state (s : RTCSignalingState)
| ice_candidate (c : RTCIceCandidate)
| null
| media_stream (r : StreamRef).

Inductive Notification :=
| next (v : Value)
| complete
| error (e : DOMException).

Definition Emission : Type := SubscriberId * Notification.

(** ** The adapter *)

Section Adapter.

Variable E : Engine.

(** [connection] is the field of the class, [inboundStream] the variable
    the constructor closes over, and [listeners] the listeners that
    subscriptions have added to the connection, oldest first. *)
Record PeerAdapter := mkAdapter {
  connection : PC E;
  inboundStream : option MediaStream;
  listeners : list (EventType * SubscriberId)
}.

Definition with_connection (a : PeerAdapter) (c : PC E) : PeerAdapter :=
  {| connection := c;
     inboundStream := inboundStream a;
     listeners := listeners a |}.

(** [this.connection = new RTCPeerConnection(config)]; the observables
    are built but nobody has subscribed, and [inboundStream] is [null]. *)
Definition constructor (config : PeerConfig) : Res PeerAdapter :=
  match new_RTCPeerConnection E config with
  | Ok c => Ok {| connection := c; inboundStream := None; listeners := [] |}
  | Err e => Err e
  end.

(** [new Promise((resolve, reject) => chain.then(resolve).catch(reject))] *)
Definition promise {A} (chain : Chain.t (PC E) A) (a : PeerAdapter)
  : Outcome A * PeerAdapter * list Call :=
  match chain (connection a) with
  | (Ok v, c, log) => (Resolved v, with_connection a c, log)
  | (Err e, c, log) => (Rejected e, with_connection a c, log)
  end.

(** [this.connection.createOffer(options)
      .then((sdp) => this.connection.setLocalDescription(sdp))
      .then(() => resolve(this.connection.localDescription))
      .catch((err) => reject(err))] *)
Definition createOffer (options : option RTCOfferOptions) :=
  promise (
    sdp <- Chain.call (call_createOffer options) (pc_createOffer E options) ;;
    _ <- Chain.call (call_setLocalDescription sdp)
                    (pc_setLocalDescription E sdp) ;;
    Chain.get (pc_localDescription E)).

(** [this.connection.setRemoteDescription(options)
      .then(() => this.connection.createAnswer())
      .then((sdp) => this.connection.setLocalDescription(sdp))
      .then(() => resolve(this.connection.localDescription))
      .catch((err) => reject(err))]; the parameter is optional. *)
Definition createAnswer (options : option RTCSessionDescription) :=
  promise (
    _ <- Chain.call (call_setRemoteDescription options)
                    (pc_setRemoteDescription E options) ;;
    sdp <- Chain.call call_createAnswer (pc_createAnswer E) ;;
    _ <- Chain.call (call_setLocalDescription sdp)
                    (pc_setLocalDescription E sdp) ;;
    Chain.get (pc_localDescription E)).

(** [return this.connection.setRemoteDescription(
              new RTCSessionDescription(description))] and
    [return this.connection.addIceCandidate(new RTCIceCandidate(candidate))]:
    the engine's own promise is returned; the DOM constructor runs first and
    throws synchronously when it fails. *)
Definition setRemote (description : option RTCSessionDescription)
    (a : PeerAdapter) : Outcome unit * PeerAdapter * list Call :=
  match new_RTCSessionDescription E description with
  | Err e => (Thrown e, a, [])
  | Ok d =>
      promise (Chain.call (call_setRemoteDescription (Some d))
                          (pc_setRemoteDescription E (Some d))) a
  end.

Definition addCandidate (cand : RTCIceCandidate)
    (a : PeerAdapter) : Outcome unit * PeerAdapter * list Call :=
  match new_RTCIceCandidate E cand with
  | Err e => (Thrown e, a, [])
  | Ok c =>
      promise (Chain.call (call_addIceCandidate c)
                          (pc_addIceCandidate E c)) a
  end.

(** [return this.connection.createDataChannel(label, options)] *)
Definition createDataChannel (label : string)
    (options : option RTCDataChannelInit) (a : PeerAdapter)
  : Outcome RTCDataChannel * PeerAdapter * list Call :=
  match pc_createDataChannel E label options (connection a) with
  | (Ok ch, c) =>
      (Returned ch, with_connection a c, [call_createDataChannel label options])
  | (Err e, c) =>
      (Thrown e, with_connection a c, [call_createDataChannel label options])
  end.

(** [return this.connection.close()] *)
Definition close (a : PeerAdapter) : PeerAdapter * list Call :=
  (with_connection a (pc_close E (connection a)), [call_close]).

(** *** The three observables

    Each is cold: [subscribe] runs the function given to
    [new Observable], which adds one listener to the connection for the
    new subscriber.  No teardown is returned, so a listener stays for
    good. *)
Definition subscribe (feed : EventType) (s : SubscriberId)
    (a : PeerAdapter) : PeerAdapter :=
  {| connection := connection a;
     inboundStream := inboundStream a;
     listeners := listeners a ++ [(feed, s)] |}.

Definition onChange := subscribe signalingstatechange.
Definition onCandidate := subscribe icecandidate.
Definition onTrack := subscribe track.

(** The value an [icecandidate] event carries in its [candidate] member:
    a candidate, or [null] when the engine has no more to give. *)
Definition payload (c : option RTCIceCandidate) : Value :=
  match c with
  | Some x => ice_candidate x
  | None => null
  end.

(** The listener that a subscription adds for subscriber [s], run on an
    event of its own type:
    - [({ target }) => subscriber.next(target as RTCPeerConnection)]
    - [({ candidate }) => subscriber.next(candidate)]
    - [({ track, streams = [] }) => ...], the only one that assigns
      [inboundStream]: with no stream in the event and no [inboundStream]
      yet, it makes one, adds the track and emits it; with an
      [inboundStream] already there it does nothing. *)
Definition listener (ev : Event) (s : SubscriberId)
    (inbound : option MediaStream) : option MediaStream * list Emission :=
  match ev with
  | ev_signalingstatechange => (inbound, [(s, next the_connection)])
  | ev_icecandidate c => (inbound, [(s, next (payload c))])
  | ev_track t streams =>
      match match streams with Some l => l | None => [] end with
      | first :: _ => (inbound, [(s, next (media_stream first))])
      | [] =>
          match inbound with
          | None => (Some [t], [(s, next (media_stream inboundStreamRef))])
          | Some _ => (inbound, [])
          end
      end
  end.

(** The listeners of the event's type run in the order they were added. *)
Fixpoint deliver (ev : Event) (ls : list (EventType * SubscriberId))
    (inbound : option MediaStream) : option MediaStream * list Emission :=
  match ls with
  | [] => (inbound, [])
  | (ty, s) :: rest =>
      if EventType_eqb ty (event_type ev) then
        match listener ev s inbound with
        | (inbound1, out1) =>
            match deliver ev rest inbound1 with
            | (inbound2, out2) => (inbound2, out1 ++ out2)
            end
        end
      else deliver ev rest inbound
  end.

Definition dispatch (ev : Event) (a : PeerAdapter)
  : PeerAdapter * list Emission :=
  match deliver ev (listeners a) (inboundStream a) with
  | (inbound, out) =>
      ({| connection := connection a;
          inboundStream := inbound;
          listeners := listeners a |}, out)
  end.

Fixpoint dispatch_all (evs : list Event) (a : PeerAdapter)
  : PeerAdapter * list Emission :=
  match evs with
  | [] => (a, [])
  | ev :: rest =>
      match dispatch ev a with
      | (a1, out1) =>
          match dispatch_all rest a1 with
          | (a2, out2) => (a2, out1 ++ out2)
          end
      end
  end.

(** The tracks held by the stream object a reference points to.  The
    engine's own streams are opaque here. *)
Definition tracks_of (r : StreamRef) (a : PeerAdapter)
  : option (list MediaStreamTrack) :=
  match r with
  | inboundStreamRef => inboundStream a
  | remoteStream _ => None
  end.

(** *** Commands as data, to speak of sequences of calls *)

Inductive Command :=
| cmd_createOffer (options : option RTCOfferOptions)
| cmd_createAnswer (options : option RTCSessionDescription)
| cmd_setRemote (description : option RTCSessionDescription)
| cmd_addCandidate (cand : RTCIceCandidate)
| cmd_createDataChannel (label : string) (options : option RTCDataChannelInit)
| cmd_close.

Inductive Result :=
| res_description (d : option RTCSessionDescription)
| res_void
| res_channel (ch : RTCDataChannel).

Definition map_outcome {A B} (f : A -> B) (o : Outcome A) : Outcome B :=
  match o with
  | Returned a => Returned (f a)
  | Thrown e => Thrown e
  | Resolved a => Resolved (f a)
  | Rejected e => Rejected e
  end.

Definition run (cmd : Command) (a : PeerAdapter)
  : Outcome Result * PeerAdapter * list Call :=
  match cmd with
  | cmd_createOffer o =>
      match createOffer o a with
      | (r, a1, l) => (map_outcome res_description r, a1, l)
      end
  | cmd_createAnswer d =>
      match createAnswer d a with
      | (r, a1, l) => (map_outcome res_description r, a1, l)
      end
  | cmd_setRemote d =>
      match setRemote d a with
      | (r, a1, l) => (map_outcome (fun _ => res_void) r, a1, l)
      end
  | cmd_addCandidate c =>
      match addCandidate c a with
      | (r, a1, l) => (map_outcome (fun _ => res_void) r, a1, l)
      end
  | cmd_createDataChannel label o =>
      match createDataChannel label o a with
      | (r, a1, l) => (map_outcome res_channel r, a1, l)
      end
  | cmd_close =>
      match close a with
      | (a1, l) => (Returned res_void, a1, l)
      end
  end.

(** The adapter after a sequence of calls, each made once the one before
    has settled. *)
Definition after (cmds : list Command) (a : PeerAdapter) : PeerAdapter :=
  fold_left (fun a cmd => snd (fst (run cmd a))) cmds a.

(** *** Vocabulary for the results *)

Implicit Types (a : PeerAdapter) (c : PC E) (inbound : option MediaStream).

(** An engine operation that fails and leaves the connection closed. *)
Definition refuses {A} (x : Res A * PC E) : Prop :=
  (exists e, fst x = Err e) /\ pc_signalingState E (snd x) = closed.

(** Modelled from the spec: the engine's side of a closed connection,
    which is the browser's and not in the repository.  Section 4.1 has
    "any state -> closed (terminal, via close()); no command is valid from
    closed": after [close] the connection reads [closed], and a closed
    connection turns down what the adapter asks first in each command and
    stays closed. *)
Record ClosedIsTerminal : Prop := {
  close_closes :
    forall c, pc_signalingState E (pc_close E c) = closed;
  closed_createOffer :
    forall options c, pc_signalingState E c = closed ->
      refuses (pc_createOffer E options c);
  closed_setRemoteDescription :
    forall description c, pc_signalingState E c = closed ->
      refuses (pc_setRemoteDescription E description c);
  closed_addIceCandidate :
    forall cand c, pc_signalingState E c = closed ->
      refuses (pc_addIceCandidate E cand c);
  closed_createDataChannel :
    forall label options c, pc_signalingState E c = closed ->
      refuses (pc_createDataChannel E label options c)
}.

(** Modelled from the spec: the engine's [close] (the boundary's
    [teardown]), which is the browser's and not in the repository: it
    leaves the connection [closed], and on a connection already closed it
    changes nothing. *)
Record ClosesOnce : Prop := {
  close_reads_closed :
    forall c, pc_signalingState E (pc_close E c) = closed;
  close_again_same :
    forall c, pc_signalingState E c = closed -> pc_close E c = c
}.

Definition is_closed a : Prop :=
  pc_signalingState E (connection a) = closed.

Definition subscribers_in (feed : EventType)
    (ls : list (EventType * SubscriberId)) : list SubscriberId :=
  map snd (filter (fun l => EventType_eqb (fst l) feed) ls).

(** The subscribers of a feed, in the order they subscribed. *)
Definition subscribers (feed : EventType) a : list SubscriberId :=
  subscribers_in feed (listeners a).

(** What one subscriber got, in order. *)
Definition received (s : SubscriberId) (out : list Emission)
  : list Notification :=
  map snd (filter (fun em => Nat.eqb (fst em) s) out).

Definition set_inboundStream a inbound : PeerAdapter :=
  {| connection := connection a;
     inboundStream := inbound;
     listeners := listeners a |}.

(** What a subscriber reads as the signaling state from a value it was
    given: only the connection has one to read. *)
Definition signalingState_through (v : Value) a
  : option RTCSignalingState :=
  match v with
  | the_connection => Some (pc_signalingState E (connection a))
  | _ => None
  end.

Definition is_next (em : Emission) : Prop := exists v, snd em = next v.

(** Modelled from the spec: the engine's side of answering a remote
    offer, which is the browser's and not in the repository.  Section 4.1
    has "stable -> have-remote-offer (after setRemote with an offer) ->
    stable (after createAnswer)", with a supplied remote offer as the
    precondition of createAnswer and a malformed description as a failure:
    - [new RTCSessionDescription(d)] is a copy of [d];
    - no description at all is refused, and nothing changes;
    - a remote offer the engine accepts leaves it in [have_remote_offer],
      where it accepts that offer again and stays there;
    - in [have_remote_offer] the engine makes an answer, typed [Answer],
      and stays there;
    - in [have_remote_offer] it accepts an answer as the local
      description, which ends the round: the connection is [stable] and
      its local description is typed [Answer]. *)
Record AnswersOffers : Prop := {
  description_is_copied :
    forall d, new_RTCSessionDescription E (Some d) = Ok d;
  absent_description_is_refused :
    forall c, exists e, pc_setRemoteDescription E None c = (Err e, c);
  remote_offer_stands :
    forall d c c1,
      sd_type d = Offer ->
      pc_setRemoteDescription E (Some d) c = (Ok tt, c1) ->
      pc_signalingState E c1 = have_remote_offer /\
      exists c2,
        pc_setRemoteDescription E (Some d) c1 = (Ok tt, c2) /\
        pc_signalingState E c2 = have_remote_offer;
  answer_is_made :
    forall c,
      pc_signalingState E c = have_remote_offer ->
      exists sdp c1,
        pc_createAnswer E c = (Ok sdp, c1) /\
        sd_type sdp = Answer /\
        pc_signalingState E c1 = have_remote_offer;
  local_answer_settles :
    forall sdp c,
      sd_type sdp = Answer ->
      pc_signalingState E c = have_remote_offer ->
      exists c1 d,
        pc_setLocalDescription E sdp c = (Ok tt, c1) /\
        pc_signalingState E c1 = stable /\
        pc_localDescription E c1 = Some d /\
        sd_type d = Answer
}.

Definition ungrouped (t : MediaStreamTrack) : Event := ev_track t None.

End Adapter.

Arguments with_connection {E} a c.
Arguments tracks_of {E} r a.

(** ** A reference engine *)

(** Modelled from the spec: the transport engine behind
    [RTCPeerConnection], which the repository does not contain (it is the
    browser's).  The model follows the negotiation state machine of the
    spec's section 4.1 and the engine boundary of its section 6, filled in
    with the W3C signalling-state table for the transitions the spec leaves
    open.  The general results below hold for every [Engine]; this one
    shows that their assumptions can be met and gives the concrete runs. *)
Module Browser.

Record Connection := mkConnection {
  signalingState : RTCSignalingState;
  pendingLocalDescription : option RTCSessionDescription;
  currentLocalDescription : option RTCSessionDescription;
  pendingRemoteDescription : option RTCSessionDescription;
  currentRemoteDescription : option RTCSessionDescription;
  remoteCandidates : list RTCIceCandidate;
  dataChannels : nat
}.

Definition initial : Connection :=
  {| signalingState := stable;
     pendingLocalDescription := None;
     currentLocalDescription := None;
     pendingRemoteDescription := None;
     currentRemoteDescription := None;
     remoteCandidates := [];
     dataChannels := 0 |}.

Definition localDescription (c : Connection) :=
  match pendingLocalDescription c with
  | Some d => Some d
  | None => currentLocalDescription c
  end.

Definition remoteDescription (c : Connection) :=
  match pendingRemoteDescription c with
  | Some d => Some d
  | None => currentRemoteDescription c
  end.

(** The description in effect once the engine has taken a local one: the
    engine adds its own ICE credentials to the text. *)
Definition applied (d : RTCSessionDescription) : RTCSessionDescription :=
  {| sd_type := sd_type d;
     sd_sdp := (sd_sdp d ++ "a=ice-ufrag:local;")%string |}.

(** Both pending descriptions become current: the round is over. *)
Definition settle (l r : option RTCSessionDescription) (c : Connection) :=
  {| signalingState := stable;
     pendingLocalDescription := None;
     currentLocalDescription := l;
     pendingRemoteDescription := None;
     currentRemoteDescription := r;
     remoteCandidates := remoteCandidates c;
     dataChannels := dataChannels c |}.

Definition pend_local (s : RTCSignalingState) (d : RTCSessionDescription)
    (c : Connection) :=
  {| signalingState := s;
     pendingLocalDescription := Some d;
     currentLocalDescription := currentLocalDescription c;
     pendingRemoteDescription := pendingRemoteDescription c;
     currentRemoteDescription := currentRemoteDescription c;
     remoteCandidates := remoteCandidates c;
     dataChannels := dataChannels c |}.

Definition pend_remote (s : RTCSignalingState) (d : RTCSessionDescription)
    (c : Connection) :=
  {| signalingState := s;
     pendingLocalDescription := pendingLocalDescription c;
     currentLocalDescription := currentLocalDescription c;
     pendingRemoteDescription := Some d;
     currentRemoteDescription := currentRemoteDescription c;
     remoteCandidates := remoteCandidates c;
     dataChannels := dataChannels c |}.

Definition createOffer (_ : option RTCOfferOptions) (c : Connection)
  : Res RTCSessionDescription * Connection :=
  match signalingState c with
  | stable | have_local_offer =>
      (Ok {| sd_type := Offer; sd_sdp := "v=0;" |}, c)
  | _ => (Err InvalidStateError, c)
  end.

Definition createAnswer (c : Connection)
  : Res RTCSessionDescription * Connection :=
  match signalingState c with
  | have_remote_offer | have_local_pranswer =>
      (Ok {| sd_type := Answer; sd_sdp := "v=0;" |}, c)
  | _ => (Err InvalidStateError, c)
  end.

Definition setLocalDescription (d : RTCSessionDescription) (c : Connection)
  : Res unit * Connection :=
  match sd_type d, signalingState c with
  | Offer, (stable | have_local_offer) =>
      (Ok tt, pend_local have_local_offer (applied d) c)
  | Answer, (have_remote_offer | have_local_pranswer) =>
      (Ok tt, settle (Some (applied d)) (pendingRemoteDescription c) c)
  | Pranswer, (have_remote_offer | have_local_pranswer) =>
      (Ok tt, pend_local have_local_pranswer (applied d) c)
  | Rollback, (have_local_offer | have_remote_offer) =>
      (Ok tt,
       settle (currentLocalDescription c) (currentRemoteDescription c) c)
  | _, _ => (Err InvalidStateError, c)
  end.

Definition setRemoteDescription (description : option RTCSessionDescription)
    (c : Connection) : Res unit * Connection :=
  match description with
  | None => (Err TypeError, c)
  | Some d =>
      match sd_type d, signalingState c with
      | Offer, (stable | have_remote_offer) =>
          (Ok tt, pend_remote have_remote_offer d c)
      | Answer, (have_local_offer | have_remote_pranswer) =>
          (Ok tt, settle (pendingLocalDescription c) (Some d) c)
      | Pranswer, (have_local_offer | have_remote_pranswer) =>
          (Ok tt, pend_remote have_remote_pranswer d c)
      | Rollback, (have_local_offer | have_remote_offer) =>
          (Ok tt,
           settle (currentLocalDescription c) (currentRemoteDescription c) c)
      | _, _ => (Err InvalidStateError, c)
      end
  end.

Definition addIceCandidate (cand : RTCIceCandidate) (c : Connection)
  : Res unit * Connection :=
  match signalingState c, remoteDescription c with
  | closed, _ => (Err InvalidStateError, c)
  | _, None => (Err InvalidStateError, c)
  | _, Some _ =>
      (Ok tt,
       {| signalingState := signalingState c;
          pendingLocalDescription := pendingLocalDescription c;
          currentLocalDescription := currentLocalDescription c;
          pendingRemoteDescription := pendingRemoteDescription c;
          currentRemoteDescription := currentRemoteDescription c;
          remoteCandidates := remoteCandidates c ++ [cand];
          dataChannels := dataChannels c |})
  end.

(** A channel negotiated by the application must come with its id. *)
Definition acceptable (options : option RTCDataChannelInit) : bool :=
  match options with
  | Some o =>
      negb (negotiated o) ||
      match id o with Some _ => true | None => false end
  | None => true
  end.

Definition createDataChannel (label : string)
    (options : option RTCDataChannelInit) (c : Connection)
  : Res RTCDataChannel * Connection :=
  match signalingState c with
  | closed => (Err InvalidStateError, c)
  | _ =>
      if negb (acceptable options) then (Err TypeError, c)
      else
        (Ok {| dc_label := label; dc_id := dataChannels c |},
         {| signalingState := signalingState c;
            pendingLocalDescription := pendingLocalDescription c;
            currentLocalDescription := currentLocalDescription c;
            pendingRemoteDescription := pendingRemoteDescription c;
            currentRemoteDescription := currentRemoteDescription c;
            remoteCandidates := remoteCandidates c;
            dataChannels := S (dataChannels c) |})
  end.

Definition close (c : Connection) : Connection :=
  match signalingState c with
  | closed => c
  | _ =>
      {| signalingState := closed;
         pendingLocalDescription := pendingLocalDescription c;
         currentLocalDescription := currentLocalDescription c;
         pendingRemoteDescription := pendingRemoteDescription c;
         currentRemoteDescription := currentRemoteDescription c;
         remoteCandidates := remoteCandidates c;
         dataChannels := dataChannels c |}
  end.

Definition newSessionDescription (init : option RTCSessionDescription)
  : Res RTCSessionDescription :=
  match init with
  | Some d => Ok d
  | None => Err TypeError
  end.

Definition newIceCandidate (init : RTCIceCandidate) : Res RTCIceCandidate :=
  match sdpMid init, sdpMLineIndex init with
  | None, None => Err TypeError
  | _, _ => Ok init
  end.

Definition engine : Engine :=
  {| PC := Connection;
     new_RTCPeerConnection := fun _ => Ok initial;
     pc_createOffer := createOffer;
     pc_createAnswer := createAnswer;
     pc_setLocalDescription := setLocalDescription;
     pc_setRemoteDescription := setRemoteDescription;
     pc_addIceCandidate := addIceCandidate;
     pc_createDataChannel := createDataChannel;
     pc_close := close;
     pc_localDescription := localDescription;
     pc_signalingState := signalingState;
     new_RTCSessionDescription := newSessionDescription;
     new_RTCIceCandidate := newIceCandidate |}.

(** The adapter [new PeerAdapter(config)] gives on this engine. *)
Definition fresh : PeerAdapter engine :=
  @mkAdapter engine initial None [].

End Browser.

(** ** Concrete inputs *)

Module Sample.

Definition raw_offer : RTCSessionDescription :=
  {| sd_type := Offer; sd_sdp := "v=0;" |}.

Definition raw_answer : RTCSessionDescription :=
  {| sd_type := Answer; sd_sdp := "v=0;" |}.

Definition remote_offer : RTCSessionDescription :=
  {| sd_type := Offer; sd_sdp := "v=0;o=remote;" |}.

Definition host_candidate : RTCIceCandidate :=
  {| candidate := "candidate:1 1 udp 2122260223 192.0.2.1 54321 typ host";
     sdpMid := Some "0";
     sdpMLineIndex := Some 0;
     usernameFragment := None |}.

Definition audio : MediaStreamTrack :=
  {| track_kind := "audio"; track_id := 1 |}.
Definition video : MediaStreamTrack :=
  {| track_kind := "video"; track_id := 2 |}.
Definition screen : MediaStreamTrack :=
  {| track_kind := "video"; track_id := 3 |}.

(** A new adapter with one subscriber on a feed. *)
Definition watcher : PeerAdapter Browser.engine := onChange 1 Browser.fresh.
Definition gatherer : PeerAdapter Browser.engine := onCandidate 1 Browser.fresh.
Definition viewer : PeerAdapter Browser.engine := onTrack 1 Browser.fresh.

(** [viewer] once a first track has come without a stream. *)
Definition viewing : PeerAdapter Browser.engine :=
  fst (dispatch (ungrouped audio) viewer).

(** A new adapter that has been given a remote offer through [setRemote]. *)
Definition offered : PeerAdapter Browser.engine :=
  after [cmd_setRemote (Some remote_offer)] Browser.fresh.

End Sample.

(** ** Validation helpers

    [libs/util/format/src/lib/validations.ts]: two checks on any value
    and a check of a string against the UUID pattern.  Strings are taken
    with one-byte characters; every class of the pattern holds ASCII
    characters only. *)

Module Validations.

(** A JavaScript value, as far as [!==] against [null] or [undefined]
    can tell values apart.  A number is given by its 64 bits. *)
Inductive JSValue :=
| js_undefined
| js_null
| js_boolean (b : bool)
| js_number (bits : list bool)
| js_string (s : string)
| js_object (ref : nat).

(** [(val: any) => val !== null] *)
Definition notNull (val : JSValue) : bool :=
  match val with
  | js_null => false
  | _ => true
  end.

(** [(val: any) => val !== undefined] *)
Definition isDefined (val : JSValue) : bool :=
  match val with
  | js_undefined => false
  | _ => true
  end.

(** *** The pattern language the UUID pattern is written in

    A pattern is a run of items [class{n}]; a class is a list of
    character ranges, [x] standing for the range from [x] to [x].  With
    exact counts there is nothing to backtrack over: an item takes its [n]
    characters or the match fails. *)

Definition in_range (lo hi c : ascii) : bool :=
  Nat.leb (nat_of_ascii lo) (nat_of_ascii c) &&
  Nat.leb (nat_of_ascii c) (nat_of_ascii hi).

Definition CharClass := list (ascii * ascii).

Definition members (r : ascii * ascii) : list ascii :=
  map ascii_of_nat
      (seq (nat_of_ascii (fst r))
           (S (nat_of_ascii (snd r)) - nat_of_ascii (fst r))).

(** The [i] flag compares characters by their upper-case form.  Only the
    letters [a] to [z] have one that a class of this file can hold. *)
Definition canonicalize (c : ascii) : ascii :=
  if in_range "a" "z" c then ascii_of_nat (nat_of_ascii c - 32) else c.

(** A character is in a class when it is one of its members; under the
    [i] flag, when some member has the same canonical form. *)
Definition class_matches (ignoreCase : bool) (cls : CharClass) (c : ascii)
  : bool :=
  existsb
    (fun a =>
       if ignoreCase then Ascii.eqb (canonicalize a) (canonicalize c)
       else Ascii.eqb a c)
    (flat_map members cls).

(** [class{n}] at the head of [s]: what is left of [s], if it matches. *)
Fixpoint match_class (ignoreCase : bool) (cls : CharClass) (n : nat)
    (s : string) : option string :=
  match n with
  | 0 => Some s
  | S k =>
      match s with
      | String c rest =>
          if class_matches ignoreCase cls c
          then match_class ignoreCase cls k rest
          else None
      | EmptyString => None
      end
  end.

Fixpoint match_sequence (ignoreCase : bool) (p : list (CharClass * nat))
    (s : string) : option string :=
  match p with
  | [] => Some s
  | (cls, n) :: rest =>
      match match_class ignoreCase cls n s with
      | Some s1 => match_sequence ignoreCase rest s1
      | None => None
      end
  end.

(** [/^(?:p)$/.test(s)]: the whole of [s] is to match. *)
Definition test (ignoreCase : bool) (p : list (CharClass * nat)) (s : string)
  : bool :=
  match match_sequence ignoreCase p s with
  | Some EmptyString => true
  | _ => false
  end.

Definition hexdigit : CharClass := [("0", "9"); ("a", "f")]%char.
Definition hyphen : CharClass := [("-", "-")]%char.

(** [[0-9a-f]{8}-[0-9a-f]{4}-[1-5][0-9a-f]{3}-[89ab][0-9a-f]{3}-[0-9a-f]{12}] *)
Definition uuid_pattern : list (CharClass * nat) :=
  [(hexdigit, 8); (hyphen, 1);
   (hexdigit, 4); (hyphen, 1);
   ([("1", "5")]%char, 1); (hexdigit, 3); (hyphen, 1);
   ([("8", "8"); ("9", "9"); ("a", "a"); ("b", "b")]%char, 1); (hexdigit, 3);
   (hyphen, 1);
   (hexdigit, 12)].

(** [(val: string) => /^(?:...)$/i.test(val)] *)
Definition isValidUUID (val : string) : bool := test true uuid_pattern val.

(** *** Vocabulary for the results *)

Fixpoint all_chars (f : ascii -> bool) (s : string) : bool :=
  match s with
  | EmptyString => true
  | String c rest => f c && all_chars f rest
  end.

Fixpoint map_chars (f : ascii -> ascii) (s : string) : string :=
  match s with
  | EmptyString => EmptyString
  | String c rest => String (f c) (map_chars f rest)
  end.

(** A hexadecimal digit in either case. *)
Definition is_hex_digit (c : ascii) : bool :=
  in_range "0" "9" c || in_range "a" "f" c || in_range "A" "F" c.

(** The version digits the pattern lets through. *)
Definition is_version (c : ascii) : bool := in_range "1" "5" c.

(** The variant digits the pattern lets through. *)
Definition is_variant (c : ascii) : bool :=
  in_range "8" "9" c || in_range "a" "b" c || in_range "A" "B" c.

(** Upper-case letters to lower case. *)
Definition lower (c : ascii) : ascii :=
  if in_range "A" "Z" c then ascii_of_nat (nat_of_ascii c + 32) else c.

End Validations.

(** ** Histories

    What happens to an adapter over its life: the application calls
    commands and subscribes to feeds, the engine fires events, in any
    order. *)

Section History.

Variable E : Engine.

Inductive Action :=
| act_call (cmd : Command)
| act_subscribe (feed : EventType) (s : SubscriberId)
| act_fire (ev : Event).

Definition act (x : Action) (a : PeerAdapter E)
  : PeerAdapter E * list Emission :=
  match x with
  | act_call cmd => (snd (fst (run cmd a)), [])
  | act_subscribe feed s => (subscribe feed s a, [])
  | act_fire ev => dispatch ev a
  end.

Fixpoint play (h : list Action) (a : PeerAdapter E)
  : PeerAdapter E * list Emission :=
  match h with
  | [] => (a, [])
  | x :: rest =>
      match act x a with
      | (a1, out1) =>
          match play rest a1 with
          | (a2, out2) => (a2, out1 ++ out2)
          end
      end
  end.

(** The subscriptions of a history, as the listeners they add. *)
Definition subscriptions_of (h : list Action)
  : list (EventType * SubscriberId) :=
  flat_map
    (fun x => match x with act_subscribe feed s => [(feed, s)] | _ => [] end)
    h.

(** The engine knows its own streams only: a [track] event never carries
    the stream the adapter made. *)
Definition engine_stream (r : StreamRef) : bool :=
  match r with
  | remoteStream _ => true
  | inboundStreamRef => false
  end.

Definition from_engine (x : Action) : bool :=
  match x with
  | act_fire (ev_track _ (Some streams)) => forallb engine_stream streams
  | _ => true
  end.

(** An emission of the stream the adapter made. *)
Definition synthetic (em : Emission) : bool :=
  match snd em with
  | next (media_stream inboundStreamRef) => true
  | _ => false
  end.

(** How many times a run of emissions hands out that stream. *)
Definition synthetic_count (out : list Emission) : nat :=
  List.length (filter synthetic out).

End History.

(** ** More concrete inputs *)

Module MoreSamples.

Import Sample.

(** A new adapter that has made an offer of its own. *)
Definition offering : PeerAdapter Browser.engine :=
  after [cmd_createOffer None] Browser.fresh.

Definition remote_answer : RTCSessionDescription :=
  {| sd_type := Answer; sd_sdp := "v=0;o=remote;" |}.

(** A candidate with neither [sdpMid] nor [sdpMLineIndex]. *)
Definition orphan_candidate : RTCIceCandidate :=
  {| candidate := "candidate:1 1 udp 2122260223 192.0.2.1 54321 typ host";
     sdpMid := None;
     sdpMLineIndex := None;
     usernameFragment := None |}.

(** Subscriptions, events and commands mixed. *)
Definition busy : list Action :=
  [act_subscribe track 1;
   act_fire (ungrouped audio);
   act_subscribe track 2;
   act_fire (ungrouped video);
   act_call (cmd_createOffer None);
   act_fire (ev_track screen (Some [remoteStream 7]));
   act_call cmd_close;
   act_fire (ungrouped screen)].

Definition uuid : string := "123e4567-e89b-42d3-a456-426614174000".
Definition uuid_upper : string := "123E4567-E89B-42D3-A456-426614174000".

End MoreSamples.

(** Unfolds a command down to the engine calls it makes. *)
Ltac run_chain :=
  unfold createOffer, createAnswer, setRemote, addCandidate, promise,
    Chain.bind, Chain.call, Chain.get; simpl.

(** * Results *)

(** ** Commands *)

Section Commands.

Variable E : Engine.
Implicit Types (a : PeerAdapter E) (c : PC E).

Lemma with_connection_same a : with_connection a (connection a) = a.
Proof. destruct a; reflexivity. Qed.

Lemma with_connection_twice a c1 c2 :
  with_connection (with_connection a c1) c2 = with_connection a c2.
Proof. reflexivity. Qed.

(** *** How each command can fail *)

Lemma createOffer_rejected_at_offer a options e c1 :
  pc_createOffer E options (connection a) = (Err e, c1) ->
  createOffer options a =
    (Rejected e, with_connection a c1, [call_createOffer options]).
Proof. intros H. run_chain. rewrite H. reflexivity. Qed.

Lemma createOffer_rejected_at_apply a options sdp e c1 c2 :
  pc_createOffer E options (connection a) = (Ok sdp, c1) ->
  pc_setLocalDescription E sdp c1 = (Err e, c2) ->
  createOffer options a =
    (Rejected e, with_connection a c2,
     [call_createOffer options; call_setLocalDescription sdp]).
Proof. intros H1 H2. run_chain. rewrite H1, H2. reflexivity. Qed.

Lemma createAnswer_rejected_at_remote a options e c1 :
  pc_setRemoteDescription E options (connection a) = (Err e, c1) ->
  createAnswer options a =
    (Rejected e, with_connection a c1, [call_setRemoteDescription options]).
Proof. intros H. run_chain. rewrite H. reflexivity. Qed.

Lemma createAnswer_rejected_at_answer a options e c1 c2 :
  pc_setRemoteDescription E options (connection a) = (Ok tt, c1) ->
  pc_createAnswer E c1 = (Err e, c2) ->
  createAnswer options a =
    (Rejected e, with_connection a c2,
     [call_setRemoteDescription options; call_createAnswer]).
Proof. intros H1 H2. run_chain. rewrite H1, H2. reflexivity. Qed.

Lemma setRemote_thrown a description e :
  new_RTCSessionDescription E description = Err e ->
  setRemote description a = (Thrown e, a, []).
Proof. intros H. unfold setRemote. rewrite H. reflexivity. Qed.

Lemma setRemote_settles a description d r c1 :
  new_RTCSessionDescription E description = Ok d ->
  pc_setRemoteDescription E (Some d) (connection a) = (r, c1) ->
  setRemote description a =
    (match r with Ok v => Resolved v | Err e => Rejected e end,
     with_connection a c1, [call_setRemoteDescription (Some d)]).
Proof. intros H1 H2. run_chain. rewrite H1, H2. destruct r; reflexivity. Qed.

Lemma addCandidate_thrown a cand e :
  new_RTCIceCandidate E cand = Err e ->
  addCandidate cand a = (Thrown e, a, []).
Proof. intros H. unfold addCandidate. rewrite H. reflexivity. Qed.

Lemma addCandidate_settles a cand x r c1 :
  new_RTCIceCandidate E cand = Ok x ->
  pc_addIceCandidate E x (connection a) = (r, c1) ->
  addCandidate cand a =
    (match r with Ok v => Resolved v | Err e => Rejected e end,
     with_connection a c1, [call_addIceCandidate x]).
Proof. intros H1 H2. run_chain. rewrite H1, H2. destruct r; reflexivity. Qed.

(** No command touches the adapter's own state. *)
Lemma run_keeps_feeds cmd a :
  inboundStream (snd (fst (run cmd a))) = inboundStream a /\
  listeners (snd (fst (run cmd a))) = listeners a.
Proof.
  destruct cmd; simpl.
  - run_chain.
    destruct (pc_createOffer E options (connection a)) as [[sdp|e] c1];
      simpl; auto.
    destruct (pc_setLocalDescription E sdp c1) as [[u|e] c2]; simpl; auto.
  - run_chain.
    destruct (pc_setRemoteDescription E options (connection a))
      as [[u|e] c1]; simpl; auto.
    destruct (pc_createAnswer E c1) as [[sdp|e] c2]; simpl; auto.
    destruct (pc_setLocalDescription E sdp c2) as [[u'|e] c3]; simpl; auto.
  - run_chain.
    destruct (new_RTCSessionDescription E description) as [d|e]; simpl; auto.
    destruct (pc_setRemoteDescription E (Some d) (connection a))
      as [[u|e] c1]; simpl; auto.
  - run_chain.
    destruct (new_RTCIceCandidate E cand) as [x|e]; simpl; auto.
    destruct (pc_addIceCandidate E x (connection a)) as [[u|e] c1];
      simpl; auto.
  - unfold createDataChannel.
    destruct (pc_createDataChannel E label options (connection a))
      as [[ch|e] c1]; simpl; auto.
  - auto.
Qed.

(** *** createOffer *)

(** C1.  When the engine produces an offer and accepts it as the local
    description, [createOffer] makes exactly these two engine calls, the
    second with the offer the first gave, and resolves with what
    [localDescription] reads on the connection afterwards, not with the
    offer the engine returned. *)
Theorem createOffer_resolves_with_local_description :
  forall a options sdp c1 c2,
    pc_createOffer E options (connection a) = (Ok sdp, c1) ->
    pc_setLocalDescription E sdp c1 = (Ok tt, c2) ->
    createOffer options a =
      (Resolved (pc_localDescription E c2), with_connection a c2,
       [call_createOffer options; call_setLocalDescription sdp]).
Proof.
  intros a options sdp c1 c2 Hoffer Happly.
  run_chain. rewrite Hoffer, Happly. reflexivity.
Qed.

(** *** createAnswer *)

(** C2.  When every engine step succeeds, [createAnswer] applies its
    argument as the remote description, then asks for an answer, then
    applies that answer as the local description, in this order, and
    resolves with what [localDescription] reads afterwards. *)
Theorem createAnswer_steps_in_order :
  forall a remoteOffer sdp c1 c2 c3,
    pc_setRemoteDescription E (Some remoteOffer) (connection a)
      = (Ok tt, c1) ->
    pc_createAnswer E c1 = (Ok sdp, c2) ->
    pc_setLocalDescription E sdp c2 = (Ok tt, c3) ->
    createAnswer (Some remoteOffer) a =
      (Resolved (pc_localDescription E c3), with_connection a c3,
       [call_setRemoteDescription (Some remoteOffer);
        call_createAnswer;
        call_setLocalDescription sdp]).
Proof.
  intros a remoteOffer sdp c1 c2 c3 Hremote Hanswer Hlocal.
  run_chain. rewrite Hremote, Hanswer, Hlocal. reflexivity.
Qed.

(** *** createDataChannel *)

(** C10.  [createDataChannel] hands back the engine's own result at once:
    the channel the engine made is returned, an engine refusal is thrown
    (never a rejected promise), one engine call is made, and the
    adapter's stream and listeners are as before. *)
Theorem createDataChannel_passes_through :
  forall a label options,
    match pc_createDataChannel E label options (connection a),
          createDataChannel label options a with
    | (r, c), (out, a', calls) =>
        out = match r with Ok ch => Returned ch | Err e => Thrown e end /\
        connection a' = c /\
        inboundStream a' = inboundStream a /\
        listeners a' = listeners a /\
        calls = [call_createDataChannel label options]
    end.
Proof.
  intros a label options. unfold createDataChannel.
  destruct (pc_createDataChannel E label options (connection a))
    as [[ch|e] c]; simpl; repeat split.
Qed.

End Commands.

(** ** Closing *)

Section Closing.

Variable E : Engine.
Implicit Types (a : PeerAdapter E) (c : PC E).



Lemma run_when_closed (T : ClosedIsTerminal E) cmd a :
  is_closed a ->
  is_closed (snd (fst (run cmd a))) /\
  (cmd <> cmd_close -> failed (fst (fst (run cmd a))) = true).
Proof.
  unfold is_closed. intros Hc. destruct cmd; simpl.
  - destruct (closed_createOffer T options _ Hc) as [[e He] Hs].
    destruct (pc_createOffer E options (connection a)) as [r c1] eqn:Heq.
    simpl in He, Hs. subst r.
    rewrite (createOffer_rejected_at_offer _ _ Heq). simpl. auto.
  - destruct (closed_setRemoteDescription T options _ Hc) as [[e He] Hs].
    destruct (pc_setRemoteDescription E options (connection a))
      as [r c1] eqn:Heq.
    simpl in He, Hs. subst r.
    rewrite (createAnswer_rejected_at_remote _ _ Heq). simpl. auto.
  - destruct (new_RTCSessionDescription E description) as [d|e] eqn:Hd.
    + destruct (closed_setRemoteDescription T (Some d) _ Hc)
        as [[e He] Hs].
      destruct (pc_setRemoteDescription E (Some d) (connection a))
        as [r c1] eqn:Heq.
      simpl in He, Hs. subst r.
      rewrite (setRemote_settles _ _ Hd Heq). simpl. auto.
    + rewrite (setRemote_thrown _ _ Hd). simpl. auto.
  - destruct (new_RTCIceCandidate E cand) as [x|e] eqn:Hx.
    + destruct (closed_addIceCandidate T x _ Hc) as [[e He] Hs].
      destruct (pc_addIceCandidate E x (connection a)) as [r c1] eqn:Heq.
      simpl in He, Hs. subst r.
      rewrite (addCandidate_settles _ _ Hx Heq). simpl. auto.
    + rewrite (addCandidate_thrown _ _ Hx). simpl. auto.
  - destruct (closed_createDataChannel T label options _ Hc)
      as [[e He] Hs].
    unfold createDataChannel.
    destruct (pc_createDataChannel E label options (connection a))
      as [r c1].
    simpl in He, Hs. subst r. simpl. auto.
  - split; [apply (close_closes T) | congruence].
Qed.

Lemma after_when_closed (T : ClosedIsTerminal E) cmds :
  forall a, is_closed a -> is_closed (after cmds a).
Proof.
  induction cmds as [|cmd cmds IH]; intros a Hc; simpl.
  - exact Hc.
  - apply IH. apply (run_when_closed T cmd Hc).
Qed.

(** C4.  On an engine whose closed connections refuse, once [close] has
    run the connection stays closed whatever is called next, and each of
    [createOffer], [createAnswer], [setRemote], [addCandidate] and
    [createDataChannel] fails (rejects or throws), with any argument and
    after any further calls. *)
Theorem no_command_succeeds_after_close :
  ClosedIsTerminal E ->
  forall a (later : list Command) (cmd : Command),
    cmd <> cmd_close ->
    is_closed (after later (fst (close a))) /\
    failed (fst (fst (run cmd (after later (fst (close a)))))) = true.
Proof.
  intros T a later cmd Hcmd.
  assert (Hclosed : is_closed (after later (fst (close a)))).
  { apply (after_when_closed T). apply (close_closes T). }
  split; [exact Hclosed|].
  apply (run_when_closed T cmd Hclosed). exact Hcmd.
Qed.

(** *** What close does *)

(** C5, as the code has it.  [close] makes one engine call, [close] on
    the connection, and changes nothing else: the listeners of the three
    feeds stay on the connection, so an event fired at it would be
    propagated as before, and [inboundStream] keeps the stream it
    holds. *)
Theorem close_only_closes_the_connection :
  forall a,
    connection (fst (close a)) = pc_close E (connection a) /\
    snd (close a) = [call_close] /\
    inboundStream (fst (close a)) = inboundStream a /\
    listeners (fst (close a)) = listeners a /\
    (forall ev, snd (dispatch ev (fst (close a))) = snd (dispatch ev a)).
Proof.
  intros a. repeat split.
  intros ev. unfold dispatch. simpl.
  destruct (deliver ev (listeners a) (inboundStream a)); reflexivity.
Qed.

(** C6.  On an engine for which closing a closed connection changes
    nothing, every [close] after the first leaves the whole adapter
    (connection, stream and listeners) as the first [close] left it, and
    every [close] returns normally. *)
Theorem close_is_idempotent :
  ClosesOnce E ->
  forall a n,
    after (repeat cmd_close (S n)) a = fst (close a) /\
    fst (fst (run cmd_close (after (repeat cmd_close n) a)))
      = Returned res_void.
Proof.
  intros [Hcloses Hnoop] a n. split; [|reflexivity].
  change (after (repeat cmd_close n) (fst (close a)) = fst (close a)).
  induction n as [|n IH]; [reflexivity|].
  change (after (repeat cmd_close n) (fst (close (fst (close a))))
          = fst (close a)).
  replace (fst (close (fst (close a)))) with (fst (close a)); [exact IH|].
  simpl. rewrite (Hnoop _ (Hcloses (connection a))). reflexivity.
Qed.

End Closing.

(** ** Feeds *)

Section Feeds.

Variable E : Engine.
Implicit Types (a : PeerAdapter E) (inbound : option MediaStream).






Lemma set_inboundStream_same a : set_inboundStream a (inboundStream a) = a.
Proof. destruct a; reflexivity. Qed.

Lemma dispatch_deliver ev a :
  dispatch ev a =
    (set_inboundStream a (fst (deliver ev (listeners a) (inboundStream a))),
     snd (deliver ev (listeners a) (inboundStream a))).
Proof.
  unfold dispatch.
  destruct (deliver ev (listeners a) (inboundStream a)); reflexivity.
Qed.

(** *** state-change *)

Lemma deliver_signalingstatechange ls inbound :
  deliver ev_signalingstatechange ls inbound =
    (inbound,
     map (fun s => (s, next the_connection))
         (subscribers_in signalingstatechange ls)).
Proof.
  induction ls as [|[ty s] ls IH]; simpl; [reflexivity|].
  unfold subscribers_in in *. simpl.
  destruct ty; simpl; rewrite IH; reflexivity.
Qed.


(** C7, as the code has it.  On a [signalingstatechange] event each
    subscriber of the state-change feed is given, once and in
    subscription order, the connection itself; the adapter is left as it
    was, and the signaling state is what the subscriber reads off that
    connection. *)
Theorem onChange_emits_the_connection :
  forall a,
    dispatch ev_signalingstatechange a =
      (a, map (fun s => (s, next the_connection))
              (subscribers signalingstatechange a)) /\
    signalingState_through the_connection a
      = Some (pc_signalingState E (connection a)).
Proof.
  intros a. split; [|reflexivity].
  rewrite dispatch_deliver, deliver_signalingstatechange. simpl.
  rewrite set_inboundStream_same. reflexivity.
Qed.

(** *** candidate *)

Lemma deliver_icecandidate c ls inbound :
  deliver (ev_icecandidate c) ls inbound =
    (inbound,
     map (fun s => (s, next (payload c))) (subscribers_in icecandidate ls)).
Proof.
  unfold subscribers_in.
  induction ls as [|[ty s] ls IH]; simpl; [reflexivity|].
  destruct ty; simpl; rewrite IH; reflexivity.
Qed.


Lemma listener_only_next ev s inbound :
  Forall is_next (snd (listener ev s inbound)).
Proof.
  destruct ev as [|c|t [[|r l]|]]; simpl;
    try destruct inbound; simpl;
    repeat constructor; eexists; reflexivity.
Qed.

Lemma deliver_only_next ev ls :
  forall inbound, Forall is_next (snd (deliver ev ls inbound)).
Proof.
  induction ls as [|[ty s] ls IH]; intros inbound; simpl.
  - constructor.
  - destruct (EventType_eqb ty (event_type ev)); [|apply IH].
    pose proof (listener_only_next ev s inbound) as Hl.
    destruct (listener ev s inbound) as [inbound1 out1].
    specialize (IH inbound1).
    destruct (deliver ev ls inbound1) as [inbound2 out2].
    simpl in *. apply Forall_app. split; assumption.
Qed.

Lemma dispatch_all_only_next evs :
  forall a, Forall is_next (snd (dispatch_all evs a)).
Proof.
  induction evs as [|ev evs IH]; intros a; simpl.
  - constructor.
  - rewrite dispatch_deliver.
    pose proof (deliver_only_next ev (listeners a) (inboundStream a)) as Hd.
    match goal with
    | |- context [dispatch_all evs ?x] =>
        specialize (IH x); destruct (dispatch_all evs x) as [a2 out2]
    end.
    simpl in *. apply Forall_app. split; assumption.
Qed.

(** C8, as the code has it.  The candidate feed hands every subscriber
    the payload of every [icecandidate] event, in the order the events
    come, the [null] payload included; and no feed ever sends anything
    but [next]: the adapter never completes a feed nor errors it. *)
Theorem onCandidate_forwards_every_payload :
  forall a (cs : list (option RTCIceCandidate)),
    dispatch_all (map ev_icecandidate cs) a =
      (a, flat_map (fun c => map (fun s => (s, next (payload c)))
                                 (subscribers icecandidate a)) cs) /\
    (forall evs, Forall is_next (snd (dispatch_all evs a))).
Proof.
  intros a cs. split; [|intros evs; apply dispatch_all_only_next].
  induction cs as [|c cs IH]; simpl; [reflexivity|].
  rewrite dispatch_deliver, deliver_icecandidate. simpl.
  rewrite set_inboundStream_same, IH. reflexivity.
Qed.

(** *** inbound-media *)


Lemma deliver_ungrouped_pending t m ls :
  deliver (ungrouped t) ls (Some m) = (Some m, []).
Proof.
  induction ls as [|[ty s] ls IH]; simpl; [reflexivity|].
  destruct ty; simpl; try exact IH. rewrite IH. reflexivity.
Qed.

Lemma deliver_ungrouped_first t ls s rest :
  subscribers_in track ls = s :: rest ->
  deliver (ungrouped t) ls None =
    (Some [t], [(s, next (media_stream inboundStreamRef))]).
Proof.
  induction ls as [|[ty s'] ls IH]; simpl; [discriminate|].
  unfold subscribers_in in *. simpl.
  destruct ty; simpl; try exact IH.
  intros Heq. injection Heq as -> _.
  rewrite deliver_ungrouped_pending. reflexivity.
Qed.

Lemma dispatch_all_ungrouped_pending ts :
  forall a m, inboundStream a = Some m ->
    dispatch_all (map ungrouped ts) a = (a, []).
Proof.
  induction ts as [|t ts IH]; intros a m Hm; simpl; [reflexivity|].
  rewrite dispatch_deliver, Hm, deliver_ungrouped_pending. simpl.
  rewrite <- Hm, set_inboundStream_same, (IH a m Hm). reflexivity.
Qed.

(** What the inbound-media feed does with tracks that come without a
    stream: the first makes the stream, is put into it, and the stream
    is emitted to the earliest subscriber; every later one is dropped. *)
Lemma ungrouped_tracks_after_the_first_are_dropped :
  forall a t ts s rest,
    inboundStream a = None ->
    subscribers track a = s :: rest ->
    dispatch_all (map ungrouped (t :: ts)) a =
      (set_inboundStream a (Some [t]),
       [(s, next (media_stream inboundStreamRef))]).
Proof.
  intros a t ts s rest Hnone Hsubs. simpl.
  rewrite dispatch_deliver, Hnone.
  rewrite (deliver_ungrouped_first t _ Hsubs). simpl.
  rewrite (@dispatch_all_ungrouped_pending ts
             (set_inboundStream a (Some [t])) [t] eq_refl).
  reflexivity.
Qed.

End Feeds.

(** ** Answering an offer *)

Section Answering.

Variable E : Engine.
Implicit Types (a : PeerAdapter E) (c : PC E).

(** Called without an argument, [createAnswer] still starts by applying
    its argument as the remote description: the engine is handed an absent
    description, and when it turns that down no answer is asked for. *)
Lemma createAnswer_without_argument a e c1 :
  pc_setRemoteDescription E None (connection a) = (Err e, c1) ->
  createAnswer None a =
    (Rejected e, with_connection a c1, [call_setRemoteDescription None]).
Proof. apply createAnswer_rejected_at_remote. Qed.

(** C9, as the code has it.  Once [setRemote(offer)] has resolved, a call
    [createAnswer(offer)] that passes the offer again applies it, asks for
    the answer and applies the answer; it resolves with a local
    description of type [Answer] and leaves the signaling state [stable].
    Called with no argument after the same [setRemote(offer)],
    [createAnswer] hands the engine no description and rejects; the
    signaling state stays [have_remote_offer]. *)
Theorem answer_after_setRemote :
  AnswersOffers E ->
  forall a remoteOffer a1 calls1,
    sd_type remoteOffer = Offer ->
    setRemote (Some remoteOffer) a = (Resolved tt, a1, calls1) ->
    (exists sdp answer a2,
       createAnswer (Some remoteOffer) a1 =
         (Resolved (Some answer), a2,
          [call_setRemoteDescription (Some remoteOffer);
           call_createAnswer;
           call_setLocalDescription sdp]) /\
       sd_type answer = Answer /\
       pc_signalingState E (connection a2) = stable) /\
    (exists e,
       createAnswer None a1 =
         (Rejected e, a1, [call_setRemoteDescription None]) /\
       pc_signalingState E (connection a1) = have_remote_offer).
Proof.
  intros K a remoteOffer a1 calls1 Htype Hset.
  unfold setRemote in Hset.
  rewrite (description_is_copied K remoteOffer) in Hset.
  unfold promise, Chain.call in Hset.
  destruct (pc_setRemoteDescription E (Some remoteOffer) (connection a))
    as [[[]|e] c1] eqn:Hfirst; [|discriminate Hset].
  injection Hset as <- _.
  destruct (remote_offer_stands K _ _ Htype Hfirst)
    as (Hoffered & c2 & Hagain & Hstill).
  destruct (answer_is_made K _ Hstill)
    as (sdp & c3 & Hsdp & Hsdp_type & Hstill').
  destruct (local_answer_settles K sdp c3 Hsdp_type Hstill')
    as (c4 & answer & Hlocal & Hstable & Hread & Hanswer).
  split.
  - exists sdp, answer, (with_connection a c4).
    split; [|split; [exact Hanswer | exact Hstable]].
    run_chain. rewrite Hagain, Hsdp, Hlocal. simpl. rewrite Hread.
    reflexivity.
  - destruct (absent_description_is_refused K c1) as [e Hnone].
    exists e. split; [|exact Hoffered].
    exact (createAnswer_rejected_at_remote (with_connection a c1) None Hnone).
Qed.

End Answering.

(** ** The reference engine keeps its side *)

Lemma Browser_closed_is_terminal : ClosedIsTerminal Browser.engine.
Proof.
  constructor; simpl.
  - intros c. unfold Browser.close.
    destruct (Browser.signalingState c) eqn:Hs; simpl; congruence.
  - intros options c Hc. unfold refuses, Browser.createOffer.
    rewrite Hc. simpl. eauto.
  - intros description c Hc. unfold refuses, Browser.setRemoteDescription.
    destruct description as [d|]; simpl; [|eauto].
    rewrite Hc. destruct (sd_type d); simpl; eauto.
  - intros cand c Hc. unfold refuses, Browser.addIceCandidate.
    rewrite Hc. simpl. eauto.
  - intros label options c Hc. unfold refuses, Browser.createDataChannel.
    rewrite Hc. simpl. eauto.
Qed.

Lemma Browser_closes_once : ClosesOnce Browser.engine.
Proof.
  constructor; simpl.
  - exact (close_closes Browser_closed_is_terminal).
  - intros c Hc. unfold Browser.close. rewrite Hc. reflexivity.
Qed.

Lemma Browser_answers_offers : AnswersOffers Browser.engine.
Proof.
  constructor; simpl.
  - reflexivity.
  - intros c. exists TypeError. reflexivity.
  - intros d c c1 Htype. unfold Browser.setRemoteDescription.
    rewrite Htype.
    destruct (Browser.signalingState c); intros H;
      try discriminate; injection H as <-; simpl;
      (split; [reflexivity|]); eexists; split; reflexivity.
  - intros c Hc. unfold Browser.createAnswer. rewrite Hc.
    eexists. exists c. repeat split. exact Hc.
  - intros sdp c Htype Hc. unfold Browser.setLocalDescription.
    rewrite Htype, Hc.
    eexists. exists (Browser.applied sdp). repeat split. exact Htype.
Qed.

(** ** Runs on the reference engine *)

Import Sample.

Lemma createOffer_on_a_new_adapter :
  createOffer None Browser.fresh =
    (Resolved (Some (Browser.applied raw_offer)),
     with_connection Browser.fresh
       (Browser.pend_local have_local_offer (Browser.applied raw_offer)
          Browser.initial),
     [call_createOffer None; call_setLocalDescription raw_offer]) /\
  Browser.applied raw_offer <> raw_offer.
Proof.
  split; [|discriminate].
  exact (@createOffer_resolves_with_local_description Browser.engine
           Browser.fresh None raw_offer Browser.initial
           (Browser.pend_local have_local_offer (Browser.applied raw_offer)
              Browser.initial)
           eq_refl eq_refl).
Defined.

Lemma createAnswer_on_a_new_adapter :
  fst (createAnswer (Some remote_offer) Browser.fresh) =
    (Resolved (Some (Browser.applied raw_answer)),
     with_connection Browser.fresh
       (Browser.settle (Some (Browser.applied raw_answer)) (Some remote_offer)
          Browser.initial)) /\
  snd (createAnswer (Some remote_offer) Browser.fresh) =
    [call_setRemoteDescription (Some remote_offer);
     call_createAnswer;
     call_setLocalDescription raw_answer].
Proof.
  rewrite (@createAnswer_steps_in_order Browser.engine
             Browser.fresh remote_offer raw_answer
             (Browser.pend_remote have_remote_offer remote_offer
                Browser.initial)
             (Browser.pend_remote have_remote_offer remote_offer
                Browser.initial)
             (Browser.settle (Some (Browser.applied raw_answer))
                (Some remote_offer) Browser.initial)
             eq_refl eq_refl eq_refl).
  split; reflexivity.
Defined.

Lemma every_command_fails_on_a_closed_adapter :
  let shut := after [cmd_createOffer None] (fst (close Browser.fresh)) in
  failed (fst (fst (run (cmd_createOffer None) shut))) = true /\
  failed (fst (fst (run (cmd_createAnswer (Some remote_offer)) shut))) = true /\
  failed (fst (fst (run (cmd_setRemote (Some remote_offer)) shut))) = true /\
  failed (fst (fst (run (cmd_addCandidate host_candidate) shut))) = true /\
  failed (fst (fst (run (cmd_createDataChannel "chat" None) shut))) = true.
Proof.
  pose proof (@no_command_succeeds_after_close Browser.engine
                Browser_closed_is_terminal Browser.fresh
                [cmd_createOffer None]) as H.
  repeat split; apply H; discriminate.
Defined.

Lemma closing_three_times :
  after (repeat cmd_close 3) Browser.fresh = fst (close Browser.fresh) /\
  fst (fst (run cmd_close (after (repeat cmd_close 2) Browser.fresh)))
    = Returned res_void.
Proof.
  exact (@close_is_idempotent Browser.engine
           Browser_closes_once Browser.fresh 2).
Defined.

Lemma answering_after_setRemote :
  (exists sdp answer a2,
     createAnswer (Some remote_offer) offered =
       (Resolved (Some answer), a2,
        [call_setRemoteDescription (Some remote_offer);
         call_createAnswer;
         call_setLocalDescription sdp]) /\
     sd_type answer = Answer /\
     pc_signalingState Browser.engine (connection a2) = stable) /\
  (exists e,
     createAnswer None offered =
       (Rejected e, offered, [call_setRemoteDescription None]) /\
     pc_signalingState Browser.engine (connection offered)
       = have_remote_offer).
Proof.
  exact (@answer_after_setRemote Browser.engine Browser_answers_offers
           Browser.fresh remote_offer offered
           [call_setRemoteDescription (Some remote_offer)]
           eq_refl eq_refl).
Defined.

(** C3, at three tracks.  One subscriber, three tracks that come without a
    stream: the feed emits once, the adapter's own stream, and that stream
    holds the first track only; the second and the third are in no stream
    and reach no subscriber. *)
Lemma three_ungrouped_tracks_keep_only_the_first :
  dispatch_all [ungrouped audio; ungrouped video; ungrouped screen] viewer =
    (set_inboundStream viewer (Some [audio]),
     [(1, next (media_stream inboundStreamRef))]) /\
  tracks_of inboundStreamRef
    (fst (dispatch_all [ungrouped audio; ungrouped video; ungrouped screen]
            viewer))
    = Some [audio] /\
  tracks_of inboundStreamRef
    (fst (dispatch_all [ungrouped audio; ungrouped video; ungrouped screen]
            viewer))
    <> Some [audio; video; screen].
Proof.
  split; [reflexivity|]. split; [reflexivity|]. simpl. discriminate.
Qed.

(** Against C5 as stated: [viewing] holds a stream in [inboundStream], and
    after [close] it still does; a track fired at the closed adapter with a
    stream of its own is still passed to the subscriber. *)
Lemma close_keeps_the_inbound_stream :
  ~ (is_closed (fst (close viewing)) /\
     (forall ev, snd (dispatch ev (fst (close viewing))) = []) /\
     inboundStream (fst (close viewing)) = None).
Proof. intros (_ & _ & Hfreed). vm_compute in Hfreed. discriminate Hfreed. Qed.

(** Against C7 as stated: the one subscriber of the state-change feed is
    not given the signaling state; what it gets is the connection. *)
Lemma onChange_does_not_emit_the_state :
  ~ In (1, next (signaling_state
                   (pc_signalingState Browser.engine (connection watcher))))
       (snd (dispatch ev_signalingstatechange watcher)).
Proof. vm_compute. intros [H|[]]. discriminate H. Qed.

(** Against C8 as stated: one candidate is gathered and then gathering
    ends; the subscriber is given the candidate and after it a [null]. *)
Lemma onCandidate_emits_a_last_null :
  ~ (received 1
       (snd (dispatch_all
               [ev_icecandidate (Some host_candidate); ev_icecandidate None]
               gatherer))
     = [next (ice_candidate host_candidate)]).
Proof. vm_compute. discriminate. Qed.

(** Against C9 as stated: after [setRemote(offer)], [createAnswer()]
    without an argument does not resolve with an answer and the signaling
    state is not back to [stable]. *)
Lemma createAnswer_without_argument_does_not_answer :
  ~ ((exists answer,
        fst (fst (createAnswer None offered)) = Resolved (Some answer) /\
        sd_type answer = Answer) /\
     pc_signalingState Browser.engine
       (connection (snd (fst (createAnswer None offered)))) = stable).
Proof. intros [_ Hstable]. vm_compute in Hstable. discriminate Hstable. Qed.

Example createAnswer_without_argument_on_browser :
  createAnswer None offered =
    (Rejected TypeError, offered, [call_setRemoteDescription None]) /\
  pc_signalingState Browser.engine (connection offered) = have_remote_offer.
Proof. split; reflexivity. Qed.

Example onChange_on_browser :
  snd (dispatch ev_signalingstatechange watcher) = [(1, next the_connection)].
Proof. reflexivity. Qed.

Example onCandidate_on_browser :
  received 1
    (snd (dispatch_all
            [ev_icecandidate (Some host_candidate); ev_icecandidate None]
            gatherer))
  = [next (ice_candidate host_candidate); next null].
Proof. reflexivity. Qed.

Example close_on_browser :
  inboundStream (fst (close viewing)) = Some [audio] /\
  listeners (fst (close viewing)) = [(track, 1)] /\
  snd (dispatch (ev_track video (Some [remoteStream 7])) (fst (close viewing)))
    = [(1, next (media_stream (remoteStream 7)))].
Proof. repeat split. Qed.

Example constructor_on_browser :
  constructor Browser.engine {| iceServers := [] |} = Ok Browser.fresh.
Proof. reflexivity. Qed.

Example createDataChannel_on_browser :
  fst (fst (createDataChannel "chat" None Browser.fresh))
    = Returned {| dc_label := "chat"; dc_id := 0 |} /\
  fst (fst (createDataChannel "chat"
              (Some {| ordered := true; negotiated := true; id := None |})
              Browser.fresh))
    = Thrown TypeError.
Proof. split; reflexivity. Qed.

Example grouped_tracks_on_browser :
  snd (dispatch_all
         [ev_track audio (Some [remoteStream 7; remoteStream 8]);
          ev_track video (Some [remoteStream 7])]
         viewer)
  = [(1, next (media_stream (remoteStream 7)));
     (1, next (media_stream (remoteStream 7)))].
Proof. reflexivity. Qed.

(** * Further results *)

Import MoreSamples.

(** ** Commands: failures *)

Section MoreCommands.

Variable E : Engine.
Implicit Types (a : PeerAdapter E) (c : PC E).

(** X1.  When [createOffer] rejects, the reason is the error the engine
    raised at the step where it stopped: either at offer creation, and
    then nothing was applied, or at [setLocalDescription] of the offer the
    engine had just made.  The connection is as the engine left it. *)
Theorem createOffer_rejects_with_the_engine_error :
  forall a options e a1 calls,
    createOffer options a = (Rejected e, a1, calls) ->
    (exists c1,
       pc_createOffer E options (connection a) = (Err e, c1) /\
       a1 = with_connection a c1 /\
       calls = [call_createOffer options]) \/
    (exists sdp c1 c2,
       pc_createOffer E options (connection a) = (Ok sdp, c1) /\
       pc_setLocalDescription E sdp c1 = (Err e, c2) /\
       a1 = with_connection a c2 /\
       calls = [call_createOffer options; call_setLocalDescription sdp]).
Proof.
  intros a options e a1 calls. run_chain.
  destruct (pc_createOffer E options (connection a))
    as [[sdp|e1] c1] eqn:Hoffer; simpl.
  - destruct (pc_setLocalDescription E sdp c1) as [[u|e2] c2] eqn:Hlocal;
      simpl; [discriminate|].
    intros H. injection H as -> <- <-.
    right. exists sdp, c1, c2. auto.
  - intros H. injection H as -> <- <-.
    left. exists c1. auto.
Qed.

(** X2.  When [createAnswer] rejects, it stopped at the first engine
    step that failed and made no later call; the steps before it stay
    done.  In particular, when the answer cannot be created or applied,
    the remote description has been applied all the same. *)
Theorem createAnswer_rejects_where_the_engine_stopped :
  forall a options e a1 calls,
    createAnswer options a = (Rejected e, a1, calls) ->
    (exists c1,
       pc_setRemoteDescription E options (connection a) = (Err e, c1) /\
       a1 = with_connection a c1 /\
       calls = [call_setRemoteDescription options]) \/
    (exists c1 c2,
       pc_setRemoteDescription E options (connection a) = (Ok tt, c1) /\
       pc_createAnswer E c1 = (Err e, c2) /\
       a1 = with_connection a c2 /\
       calls = [call_setRemoteDescription options; call_createAnswer]) \/
    (exists c1 sdp c2 c3,
       pc_setRemoteDescription E options (connection a) = (Ok tt, c1) /\
       pc_createAnswer E c1 = (Ok sdp, c2) /\
       pc_setLocalDescription E sdp c2 = (Err e, c3) /\
       a1 = with_connection a c3 /\
       calls = [call_setRemoteDescription options; call_createAnswer;
                call_setLocalDescription sdp]).
Proof.
  intros a options e a1 calls. run_chain.
  destruct (pc_setRemoteDescription E options (connection a))
    as [[[]|e1] c1] eqn:Hremote; simpl.
  - destruct (pc_createAnswer E c1) as [[sdp|e2] c2] eqn:Hanswer; simpl.
    + destruct (pc_setLocalDescription E sdp c2) as [[u|e3] c3] eqn:Hlocal;
        simpl; [discriminate|].
      intros H. injection H as -> <- <-.
      right. right. exists c1, sdp, c2, c3. auto.
    + intros H. injection H as -> <- <-.
      right. left. exists c1, c2. auto.
  - intros H. injection H as -> <- <-.
    left. exists c1. auto.
Qed.

(** X3.  [addCandidate] throws, instead of returning a promise, exactly
    when [new RTCIceCandidate] refuses the candidate; it has then made no
    engine call and left the adapter as it was.  Otherwise the engine is
    handed the constructed candidate, once. *)
Theorem addCandidate_throws_before_any_call :
  forall a cand,
    ((exists e, new_RTCIceCandidate E cand = Err e) <->
     (exists e, fst (fst (addCandidate cand a)) = Thrown e)) /\
    (forall e, fst (fst (addCandidate cand a)) = Thrown e ->
               addCandidate cand a = (Thrown e, a, [])) /\
    (forall x, new_RTCIceCandidate E cand = Ok x ->
               snd (addCandidate cand a) = [call_addIceCandidate x]).
Proof.
  intros a cand. run_chain.
  destruct (new_RTCIceCandidate E cand) as [x|e0] eqn:Hx.
  - destruct (pc_addIceCandidate E x (connection a)) as [[u|e1] c1]; simpl;
      (split; [split; intros [e H]; discriminate H|]);
      (split; [intros e H; discriminate H|]);
      intros y Hy; injection Hy as <-; reflexivity.
  - simpl. split; [split; intros _; eauto|].
    split; [intros e H; injection H as <-; reflexivity|].
    intros y Hy. discriminate Hy.
Qed.

(** X4.  [setRemote] throws, instead of returning a promise, exactly
    when [new RTCSessionDescription] refuses its argument; it has then
    made no engine call and left the adapter as it was.  Otherwise the
    engine is handed the constructed description, once. *)
Theorem setRemote_throws_before_any_call :
  forall a description,
    ((exists e, new_RTCSessionDescription E description = Err e) <->
     (exists e, fst (fst (setRemote description a)) = Thrown e)) /\
    (forall e, fst (fst (setRemote description a)) = Thrown e ->
               setRemote description a = (Thrown e, a, [])) /\
    (forall d, new_RTCSessionDescription E description = Ok d ->
               snd (setRemote description a)
                 = [call_setRemoteDescription (Some d)]).
Proof.
  intros a description. run_chain.
  destruct (new_RTCSessionDescription E description) as [d|e0] eqn:Hd.
  - destruct (pc_setRemoteDescription E (Some d) (connection a))
      as [[u|e1] c1]; simpl;
      (split; [split; intros [e H]; discriminate H|]);
      (split; [intros e H; discriminate H|]);
      intros y Hy; injection Hy as <-; reflexivity.
  - simpl. split; [split; intros _; eauto|].
    split; [intros e H; injection H as <-; reflexivity|].
    intros y Hy. discriminate Hy.
Qed.

(** X5.  No command repeats an engine call: whatever the outcome, the
    calls of one command are at most three and all different. *)
Theorem no_engine_call_is_repeated :
  forall cmd a,
    NoDup (snd (run cmd a)) /\ List.length (snd (run cmd a)) <= 3.
Proof.
  intros cmd a.
  assert (H : exists l, snd (run cmd a) = l /\
     (l = [] \/ (exists x, l = [x]) \/
      (exists o sdp, l = [call_createOffer o; call_setLocalDescription sdp]) \/
      (exists d, l = [call_setRemoteDescription d; call_createAnswer]) \/
      (exists d sdp, l = [call_setRemoteDescription d; call_createAnswer;
                          call_setLocalDescription sdp]))).
  { eexists. split; [reflexivity|].
    destruct cmd; simpl; run_chain; unfold createDataChannel.
    - destruct (pc_createOffer E options (connection a)) as [[sdp|e] c1];
        simpl; eauto.
      destruct (pc_setLocalDescription E sdp c1) as [[u|e] c2]; simpl;
        eauto 7.
    - destruct (pc_setRemoteDescription E options (connection a))
        as [[u|e] c1]; simpl; eauto.
      destruct (pc_createAnswer E c1) as [[sdp|e] c2]; simpl; eauto 7.
      destruct (pc_setLocalDescription E sdp c2) as [[u'|e] c3]; simpl;
        eauto 9.
    - destruct (new_RTCSessionDescription E description) as [d|e];
        simpl; eauto.
      destruct (pc_setRemoteDescription E (Some d) (connection a))
        as [[u|e] c1]; simpl; eauto.
    - destruct (new_RTCIceCandidate E cand) as [x|e]; simpl; eauto.
      destruct (pc_addIceCandidate E x (connection a)) as [[u|e] c1];
        simpl; eauto.
    - destruct (pc_createDataChannel E label options (connection a))
        as [[ch|e] c1]; simpl; eauto.
    - eauto. }
  destruct H as (l & -> & Hshape).
  destruct Hshape
    as [->|[[x ->]|[(o & sdp & ->)|[[d ->]|(d & sdp & ->)]]]];
    (split; [|simpl; lia]);
    repeat constructor; simpl; intuition discriminate.
Qed.

End MoreCommands.

(** ** Feeds: who is given what *)

Section MoreFeeds.

Variable E : Engine.
Implicit Types (a : PeerAdapter E) (inbound : option MediaStream).

Lemma deliver_without_subscriber ev ls inbound :
  subscribers_in (event_type ev) ls = [] ->
  deliver ev ls inbound = (inbound, []).
Proof.
  unfold subscribers_in.
  induction ls as [|[ty s] ls IH]; simpl; [reflexivity|].
  destruct (EventType_eqb ty (event_type ev)); simpl;
    [discriminate | exact IH].
Qed.

Lemma dispatch_all_without_subscriber :
  forall evs a,
    Forall (fun ev => subscribers (event_type ev) a = []) evs ->
    dispatch_all evs a = (a, []).
Proof.
  induction evs as [|ev evs IH]; intros a Hall; simpl; [reflexivity|].
  inversion Hall as [|? ? Hev Hrest]; subst.
  rewrite dispatch_deliver, (deliver_without_subscriber _ _ _ Hev). simpl.
  rewrite set_inboundStream_same, (IH a Hrest). reflexivity.
Qed.

Lemma EventType_eqb_eq ty ty' : EventType_eqb ty ty' = true -> ty = ty'.
Proof. destruct ty, ty'; simpl; intros H; try discriminate; reflexivity. Qed.

Lemma no_listener_no_subscriber ty ls :
  (forall s, ~ In (ty, s) ls) -> subscribers_in ty ls = [].
Proof.
  unfold subscribers_in.
  induction ls as [|[ty' s'] ls IH]; intros Hno; simpl; [reflexivity|].
  destruct (EventType_eqb ty' ty) eqn:Hty.
  - exfalso. apply (Hno s'). left.
    rewrite (EventType_eqb_eq _ _ Hty). reflexivity.
  - apply IH. intros s Hin. apply (Hno s). right. exact Hin.
Qed.

(** X6.  An event of a type for which no listener has been added to the
    connection, that is, of a feed nobody has subscribed to so far, is
    lost: nothing is emitted and the adapter is unchanged; a track that
    comes without a stream makes no [inboundStream] then.  A listener,
    once added, stays, so this is about feeds never subscribed to, not
    about feeds whose subscribers have left. *)
Theorem events_without_listener_are_lost :
  forall evs a,
    Forall (fun ev => forall s, ~ In (event_type ev, s) (listeners a)) evs ->
    dispatch_all evs a = (a, []).
Proof.
  intros evs a Hall. apply dispatch_all_without_subscriber.
  eapply Forall_impl; [|exact Hall].
  intros ev Hno. apply no_listener_no_subscriber. exact Hno.
Qed.

(** X7.  A newly built adapter holds the connection the engine built,
    has no [inboundStream] and no listener, and lets every event pass
    unheard until somebody subscribes. *)
Theorem new_adapter_is_silent :
  forall config a,
    constructor E config = Ok a ->
    new_RTCPeerConnection E config = Ok (connection a) /\
    inboundStream a = None /\
    listeners a = [] /\
    forall evs, dispatch_all evs a = (a, []).
Proof.
  intros config a. unfold constructor.
  destruct (new_RTCPeerConnection E config) as [c|e]; [|discriminate].
  intros H. injection H as <-. repeat split.
  intros evs. apply dispatch_all_without_subscriber.
  apply Forall_forall. reflexivity.
Qed.

Lemma deliver_grouped t r rs ls inbound :
  deliver (ev_track t (Some (r :: rs))) ls inbound =
    (inbound,
     map (fun s => (s, next (media_stream r))) (subscribers_in track ls)).
Proof.
  unfold subscribers_in.
  induction ls as [|[ty s] ls IH]; simpl; [reflexivity|].
  destruct ty; simpl; rewrite IH; reflexivity.
Qed.

(** X8.  A track that comes with streams is announced to every
    subscriber of the inbound-media feed by the first of its streams, once
    per subscription and in subscription order; the other streams and
    [inboundStream] play no part, and the adapter is unchanged. *)
Theorem grouped_track_emits_its_first_stream :
  forall a t r rs,
    dispatch (ev_track t (Some (r :: rs))) a =
      (a, map (fun s => (s, next (media_stream r))) (subscribers track a)).
Proof.
  intros a t r rs.
  rewrite dispatch_deliver, deliver_grouped. simpl.
  rewrite set_inboundStream_same. reflexivity.
Qed.

Lemma deliver_to_subscribers ev ls :
  forall inbound,
    Forall (fun em => In (fst em) (subscribers_in (event_type ev) ls))
           (snd (deliver ev ls inbound)).
Proof.
  unfold subscribers_in.
  induction ls as [|[ty s] ls IH]; intros inbound; simpl; [constructor|].
  destruct (EventType_eqb ty (event_type ev)) eqn:Hty; simpl.
  - assert (Hl : Forall (fun em => fst em = s)
                        (snd (listener ev s inbound))).
    { destruct ev as [|c|t [[|r l]|]]; simpl;
        try destruct inbound; simpl; repeat constructor. }
    destruct (listener ev s inbound) as [inbound1 out1].
    specialize (IH inbound1).
    destruct (deliver ev ls inbound1) as [inbound2 out2]. simpl in *.
    apply Forall_app. split.
    + eapply Forall_impl; [|exact Hl]. intros em ->; simpl. auto.
    + eapply Forall_impl; [|exact IH]. simpl. auto.
  - apply IH.
Qed.

(** X9.  An event reaches the subscribers of its own feed only. *)
Theorem emissions_go_to_the_feed_s_subscribers :
  forall ev a,
    Forall (fun em => In (fst em) (subscribers (event_type ev) a))
           (snd (dispatch ev a)).
Proof.
  intros ev a. rewrite dispatch_deliver. simpl.
  apply deliver_to_subscribers.
Qed.

End MoreFeeds.

(** ** Histories *)

Section Histories.

Variable E : Engine.
Implicit Types (a b : PeerAdapter E) (inbound : option MediaStream).

Lemma act_call_keeps_feeds cmd a :
  inboundStream (fst (act (act_call cmd) a)) = inboundStream a /\
  listeners (fst (act (act_call cmd) a)) = listeners a.
Proof. simpl. apply run_keeps_feeds. Qed.

Lemma play_cons x h a :
  play (x :: h) a =
    (fst (play h (fst (act x a))),
     snd (act x a) ++ snd (play h (fst (act x a)))).
Proof.
  simpl. destruct (act x a) as [a1 out1]. simpl.
  destruct (play h a1); reflexivity.
Qed.

Lemma deliver_keeps_stream ev ls m :
  fst (deliver ev ls (Some m)) = Some m.
Proof.
  induction ls as [|[ty s] ls IH]; simpl; [reflexivity|].
  destruct (EventType_eqb ty (event_type ev)); [|exact IH].
  assert (Hl : fst (listener ev s (Some m)) = Some m).
  { destruct ev as [|c|t [[|r l]|]]; reflexivity. }
  destruct (listener ev s (Some m)) as [inbound1 out1]. simpl in Hl. subst.
  destruct (deliver ev ls (Some m)) as [inbound2 out2]. exact IH.
Qed.

Lemma act_keeps_stream x a m :
  inboundStream a = Some m -> inboundStream (fst (act x a)) = Some m.
Proof.
  intros Hm. destruct x as [cmd|feed s|ev].
  - rewrite (proj1 (act_call_keeps_feeds cmd a)). exact Hm.
  - exact Hm.
  - simpl. rewrite dispatch_deliver, Hm. simpl. apply deliver_keeps_stream.
Qed.

(** X10.  Once [inboundStream] holds a stream, nothing replaces or
    changes it: no event, no command ([close] included), no
    subscription. *)
Theorem inboundStream_is_set_once :
  forall h a m,
    inboundStream a = Some m ->
    inboundStream (fst (play h a)) = Some m.
Proof.
  induction h as [|x h IH]; intros a m Hm; [exact Hm|].
  rewrite play_cons. simpl. apply IH. apply act_keeps_stream. exact Hm.
Qed.

Lemma act_listeners x a :
  listeners (fst (act x a)) = listeners a ++ subscriptions_of [x].
Proof.
  destruct x as [cmd|feed s|ev]; simpl.
  - rewrite (proj2 (run_keeps_feeds cmd a)). symmetry. apply app_nil_r.
  - reflexivity.
  - rewrite dispatch_deliver. simpl. symmetry. apply app_nil_r.
Qed.

(** X11.  The listeners on the connection are exactly the subscriptions
    made, in the order they were made: no command removes one, [close]
    included. *)
Theorem listeners_are_the_subscriptions_made :
  forall h a,
    listeners (fst (play h a)) = listeners a ++ subscriptions_of h.
Proof.
  induction h as [|x h IH]; intros a.
  - simpl. symmetry. apply app_nil_r.
  - rewrite play_cons. simpl fst. rewrite IH, act_listeners.
    rewrite <- app_assoc. f_equal.
    unfold subscriptions_of. simpl. rewrite app_nil_r. reflexivity.
Qed.


(** *** The stream the adapter makes is emitted at most once *)

Lemma synthetic_count_app out1 out2 :
  synthetic_count (out1 ++ out2) = synthetic_count out1 + synthetic_count out2.
Proof. unfold synthetic_count. rewrite filter_app, length_app. reflexivity. Qed.

Lemma deliver_synthetic_pending ev ls m :
  from_engine (act_fire ev) = true ->
  synthetic_count (snd (deliver ev ls (Some m))) = 0.
Proof.
  intros Hev.
  induction ls as [|[ty s] ls IH]; simpl; [reflexivity|].
  destruct (EventType_eqb ty (event_type ev)); [|exact IH].
  assert (Hl : fst (listener ev s (Some m)) = Some m /\
               synthetic_count (snd (listener ev s (Some m))) = 0).
  { destruct ev as [|[c|]|t [[|r l]|]]; simpl; try (split; reflexivity).
    simpl in Hev. apply andb_true_iff in Hev as [Hr _].
    destruct r; [split; reflexivity | discriminate]. }
  destruct (listener ev s (Some m)) as [inbound1 out1].
  simpl in Hl. destruct Hl as [-> Hout1].
  destruct (deliver ev ls (Some m)) as [inbound2 out2]. simpl in *.
  rewrite synthetic_count_app, Hout1, IH. reflexivity.
Qed.

Lemma deliver_synthetic ev ls :
  from_engine (act_fire ev) = true ->
  (fst (deliver ev ls None) = None /\
   synthetic_count (snd (deliver ev ls None)) = 0) \/
  ((exists m, fst (deliver ev ls None) = Some m) /\
   synthetic_count (snd (deliver ev ls None)) <= 1).
Proof.
  intros Hev.
  induction ls as [|[ty s] ls IH]; simpl; [auto|].
  destruct (EventType_eqb ty (event_type ev)); [|exact IH].
  destruct ev as [|[c|]|t [[|r l]|]]; simpl.
  - destruct (deliver ev_signalingstatechange ls None) as [i2 o2].
    simpl in *. exact IH.
  - destruct (deliver (ev_icecandidate (Some c)) ls None) as [i2 o2].
    simpl in *. exact IH.
  - destruct (deliver (ev_icecandidate None) ls None) as [i2 o2].
    simpl in *. exact IH.
  - match goal with
    | |- context [deliver ?e ls (Some ?m)] =>
        destruct (deliver e ls (Some m)) as [i2 o2] eqn:Hd;
        assert (Hk : i2 = Some [t])
          by exact (eq_trans (eq_sym (f_equal fst Hd))
                             (deliver_keeps_stream e ls [t]));
        assert (Hc : synthetic_count o2 = 0)
          by exact (eq_trans
                      (f_equal (fun p => synthetic_count (snd p)) (eq_sym Hd))
                      (@deliver_synthetic_pending e ls [t] eq_refl))
    end.
    simpl. right. split; [eauto|].
    unfold synthetic_count in *. simpl. rewrite Hc. auto.
  - simpl in Hev. apply andb_true_iff in Hev as [Hr Hl].
    destruct (deliver (ev_track t (Some (r :: l))) ls None) as [i2 o2].
    simpl in *. unfold synthetic_count in *. simpl.
    destruct r; [exact IH | discriminate].
  - match goal with
    | |- context [deliver ?e ls (Some ?m)] =>
        destruct (deliver e ls (Some m)) as [i2 o2] eqn:Hd;
        assert (Hk : i2 = Some [t])
          by exact (eq_trans (eq_sym (f_equal fst Hd))
                             (deliver_keeps_stream e ls [t]));
        assert (Hc : synthetic_count o2 = 0)
          by exact (eq_trans
                      (f_equal (fun p => synthetic_count (snd p)) (eq_sym Hd))
                      (@deliver_synthetic_pending e ls [t] eq_refl))
    end.
    simpl. right. split; [eauto|].
    unfold synthetic_count in *. simpl. rewrite Hc. auto.
Qed.

Lemma play_synthetic_pending h :
  forall a m,
    forallb from_engine h = true ->
    inboundStream a = Some m ->
    synthetic_count (snd (play h a)) = 0.
Proof.
  induction h as [|x h IH]; intros a m Hh Hm; [reflexivity|].
  simpl in Hh. apply andb_true_iff in Hh as [Hx Hh].
  rewrite play_cons. simpl snd. rewrite synthetic_count_app.
  rewrite (IH _ m Hh (@act_keeps_stream x a m Hm)).
  destruct x as [cmd|feed s|ev]; simpl; try reflexivity.
  rewrite dispatch_deliver, Hm. simpl.
  rewrite (@deliver_synthetic_pending ev (listeners a) m Hx). reflexivity.
Qed.

(** X12.  Over any history whose [track] events carry the engine's own
    streams, the stream the adapter makes is emitted at most once, to one
    subscriber; if the adapter already holds it, it is not emitted
    again. *)
Theorem synthetic_stream_is_emitted_at_most_once :
  forall h a,
    forallb from_engine h = true ->
    synthetic_count (snd (play h a)) <= 1 /\
    (forall m, inboundStream a = Some m ->
               synthetic_count (snd (play h a)) = 0).
Proof.
  intros h a Hh.
  split; [|intros m Hm; exact (@play_synthetic_pending h a m Hh Hm)].
  revert a Hh. induction h as [|x h IH]; intros a Hh; [simpl; auto|].
  simpl in Hh. apply andb_true_iff in Hh as [Hx Hh].
  destruct (inboundStream a) as [m|] eqn:Hm.
  { rewrite (@play_synthetic_pending (x :: h) a m); [auto| |exact Hm].
    simpl. rewrite Hx, Hh. reflexivity. }
  rewrite play_cons. simpl snd. rewrite synthetic_count_app.
  destruct x as [cmd|feed s|ev]; simpl.
  - apply IH. exact Hh.
  - apply IH. exact Hh.
  - rewrite dispatch_deliver, Hm. simpl.
    destruct (@deliver_synthetic ev (listeners a) Hx)
      as [[Hnone ->]|[[m Hsome] Hle]].
    + apply IH. exact Hh.
    + rewrite (@play_synthetic_pending h _ m Hh); [lia|].
      simpl. exact Hsome.
Qed.


End Histories.

(** ** Validation helpers *)

Import Validations.

Ltac every_char c :=
  destruct c as [[] [] [] [] [] [] [] []]; reflexivity.

Lemma hexdigit_class c : class_matches true hexdigit c = is_hex_digit c.
Proof. every_char c. Qed.

Lemma hyphen_class c : class_matches true hyphen c = Ascii.eqb "-" c.
Proof. every_char c. Qed.

Lemma version_class c :
  class_matches true [("1", "5")]%char c = is_version c.
Proof. every_char c. Qed.

Lemma variant_class c :
  class_matches true [("8", "8"); ("9", "9"); ("a", "a"); ("b", "b")]%char c
  = is_variant c.
Proof. every_char c. Qed.

Lemma canonicalize_twice c : canonicalize (canonicalize c) = canonicalize c.
Proof. every_char c. Qed.

Lemma canonicalize_lower c : canonicalize (lower c) = canonicalize c.
Proof. every_char c. Qed.

Lemma all_chars_app f s t :
  all_chars f (s ++ t)%string = all_chars f s && all_chars f t.
Proof.
  induction s as [|c s IH]; simpl; [reflexivity|].
  rewrite IH. apply andb_assoc.
Qed.

Lemma match_class_app i cls pre rest :
  all_chars (class_matches i cls) pre = true ->
  match_class i cls (String.length pre) (pre ++ rest)%string = Some rest.
Proof.
  induction pre as [|c pre IH]; simpl; [reflexivity|].
  intros H. apply andb_true_iff in H as [Hc Hpre].
  rewrite Hc. exact (IH Hpre).
Qed.

Lemma match_class_inv i cls n :
  forall s rest,
    match_class i cls n s = Some rest ->
    exists pre,
      s = (pre ++ rest)%string /\ String.length pre = n /\
      all_chars (class_matches i cls) pre = true.
Proof.
  induction n as [|n IH]; simpl; intros s rest H.
  - injection H as <-. exists ""%string. auto.
  - destruct s as [|c s]; [discriminate|].
    destruct (class_matches i cls c) eqn:Hc; [|discriminate].
    destruct (IH _ _ H) as (pre & -> & Hlen & Hall).
    exists (String c pre). simpl. rewrite Hc, Hall, Hlen. auto.
Qed.

Lemma one_char f p :
  String.length p = 1 -> all_chars f p = true ->
  exists c, p = String c "" /\ f c = true.
Proof.
  destruct p as [|c [|c' p]]; simpl; try discriminate.
  intros _ H. rewrite andb_true_r in H. eauto.
Qed.

Lemma append_empty s : (s ++ "")%string = s.
Proof. induction s as [|c s IH]; simpl; [|rewrite IH]; reflexivity. Qed.

Lemma match_item i cls n pre rest p :
  String.length pre = n ->
  all_chars (class_matches i cls) pre = true ->
  match_sequence i ((cls, n) :: p) (pre ++ rest)%string
  = match_sequence i p rest.
Proof.
  intros <- H. simpl. rewrite (@match_class_app _ _ _ rest H). reflexivity.
Qed.

Lemma all_chars_ext f g s :
  (forall c, f c = g c) -> all_chars f s = all_chars g s.
Proof.
  intros H. induction s as [|c s IH]; simpl; [|rewrite H, IH]; reflexivity.
Qed.

Lemma uuid_groups s :
  isValidUUID s = true <->
  exists a b v c r d e,
    s = (a ++ "-" ++ b ++ "-" ++ String v c ++ "-" ++ String r d
           ++ "-" ++ e)%string /\
    String.length a = 8 /\ String.length b = 4 /\ String.length c = 3 /\
    String.length d = 3 /\ String.length e = 12 /\
    all_chars is_hex_digit (a ++ b ++ c ++ d ++ e)%string = true /\
    is_version v = true /\ is_variant r = true.
Proof.
  split.
  - unfold isValidUUID, test, uuid_pattern. cbn [match_sequence].
    repeat match goal with
    | |- context [match match_class ?i ?cls ?n ?x with _ => _ end] =>
        let H := fresh "H" in
        destruct (match_class i cls n x) eqn:H; [|discriminate];
        apply match_class_inv in H
    end.
    destruct s10; [|discriminate]. intros _.
    destruct H as (a & -> & La & Ha).
    destruct H0 as (h1 & -> & L1 & A1).
    destruct H1 as (b & -> & Lb & Hb).
    destruct H2 as (h2 & -> & L2 & A2).
    destruct H3 as (v & -> & Lv & Hv).
    destruct H4 as (c & -> & Lc & Hc).
    destruct H5 as (h3 & -> & L3 & A3).
    destruct H6 as (r & -> & Lr & Hr).
    destruct H7 as (d & -> & Ld & Hd).
    destruct H8 as (h4 & -> & L4 & A4).
    destruct H9 as (e & -> & Le & He).
    destruct (@one_char _ _ L1 A1) as (x1 & -> & X1).
    destruct (@one_char _ _ L2 A2) as (x2 & -> & X2).
    destruct (@one_char _ _ L3 A3) as (x3 & -> & X3).
    destruct (@one_char _ _ L4 A4) as (x4 & -> & X4).
    destruct (@one_char _ _ Lv Hv) as (xv & -> & Xv).
    destruct (@one_char _ _ Lr Hr) as (xr & -> & Xr).
    rewrite hyphen_class in X1, X2, X3, X4.
    apply Ascii.eqb_eq in X1, X2, X3, X4. subst x1 x2 x3 x4.
    rewrite version_class in Xv. rewrite variant_class in Xr.
    rewrite (@all_chars_ext _ _ _ hexdigit_class) in Ha.
    rewrite (@all_chars_ext _ _ _ hexdigit_class) in Hb.
    rewrite (@all_chars_ext _ _ _ hexdigit_class) in Hc.
    rewrite (@all_chars_ext _ _ _ hexdigit_class) in Hd.
    rewrite (@all_chars_ext _ _ _ hexdigit_class) in He.
    exists a, b, xv, c, xr, d, e.
    rewrite !all_chars_app, Ha, Hb, Hc, Hd, He.
    repeat split; auto.
    rewrite append_empty. reflexivity.
  - intros (a & b & v & c & r & d & e & -> & La & Lb & Lc & Ld & Le
            & Hhex & Hv & Hr).
    rewrite !all_chars_app, !andb_true_iff in Hhex.
    destruct Hhex as (Ha & Hb & Hc & Hd & He).
    unfold isValidUUID, test, uuid_pattern.
    rewrite <- (@all_chars_ext _ _ _ hexdigit_class) in Ha.
    rewrite <- (@all_chars_ext _ _ _ hexdigit_class) in Hb.
    rewrite <- (@all_chars_ext _ _ _ hexdigit_class) in Hc.
    rewrite <- (@all_chars_ext _ _ _ hexdigit_class) in Hd.
    rewrite <- (@all_chars_ext _ _ _ hexdigit_class) in He.
    rewrite <- version_class in Hv. rewrite <- variant_class in Hr.
    rewrite (@match_item _ _ _ a _ _ La Ha).
    rewrite (@match_item true hyphen 1 "-" _ _ eq_refl eq_refl).
    rewrite (@match_item _ _ _ b _ _ Lb Hb).
    rewrite (@match_item true hyphen 1 "-" _ _ eq_refl eq_refl).
    change (String v c ++ "-" ++ String r d ++ "-" ++ e)%string
      with (String v "" ++ c ++ "-" ++ String r "" ++ d ++ "-" ++ e)%string.
    rewrite (@match_item _ _ 1 (String v "") _ _ eq_refl).
    2: { simpl. rewrite Hv. reflexivity. }
    rewrite (@match_item _ _ _ c _ _ Lc Hc).
    rewrite (@match_item true hyphen 1 "-" _ _ eq_refl eq_refl).
    rewrite (@match_item _ _ 1 (String r "") _ _ eq_refl).
    2: { simpl. rewrite Hr. reflexivity. }
    rewrite (@match_item _ _ _ d _ _ Ld Hd).
    rewrite (@match_item true hyphen 1 "-" _ _ eq_refl eq_refl).
    rewrite <- (append_empty e).
    rewrite (@match_item _ _ _ e _ _ Le He).
    reflexivity.
Qed.

(** X14.  [isValidUUID] accepts exactly the strings of five groups of 8,
    4, 4, 4 and 12 hexadecimal digits of either case, joined by hyphens,
    whose third group starts with a digit from 1 to 5 and whose fourth
    starts with 8, 9, a or b. *)
Theorem isValidUUID_iff s :
  isValidUUID s = true <->
  exists a b v c r d e,
    s = (a ++ "-" ++ b ++ "-" ++ String v c ++ "-" ++ String r d
           ++ "-" ++ e)%string /\
    String.length a = 8 /\ String.length b = 4 /\ String.length c = 3 /\
    String.length d = 3 /\ String.length e = 12 /\
    all_chars is_hex_digit (a ++ b ++ c ++ d ++ e)%string = true /\
    is_version v = true /\ is_variant r = true.
Proof. exact (uuid_groups s). Qed.

Ltac spell s :=
  repeat match goal with
  | H : String.length s = S _ |- _ =>
      destruct s as [|? s]; simpl in H; [discriminate H|];
      apply Nat.succ_inj in H
  | H : String.length s = 0 |- _ =>
      destruct s; simpl in H; [clear H | discriminate H]
  end.

(** X15.  A string [isValidUUID] accepts has 36 characters, hyphens at
    positions 8, 13, 18 and 23, a version digit from 1 to 5 at position 14
    and a variant digit 8, 9, a or b at position 19: nothing may follow or
    precede, and the nil UUID and versions 6 to 8 are turned down. *)
Theorem isValidUUID_shape s :
  isValidUUID s = true ->
  String.length s = 36 /\
  String.get 8 s = Some "-"%char /\ String.get 13 s = Some "-"%char /\
  String.get 18 s = Some "-"%char /\ String.get 23 s = Some "-"%char /\
  (exists v, String.get 14 s = Some v /\ is_version v = true) /\
  (exists r, String.get 19 s = Some r /\ is_variant r = true).
Proof.
  intros H. apply uuid_groups in H.
  destruct H as (a & b & v & c & r & d & e & -> & La & Lb & Lc & Ld & Le
                 & _ & Hv & Hr).
  spell a. spell b. spell c. spell d. spell e.
  simpl. repeat split; eauto.
Qed.

Lemma class_matches_canonical cls f :
  (forall c, canonicalize (f c) = canonicalize c) ->
  forall c, class_matches true cls (f c) = class_matches true cls c.
Proof.
  intros Hf c. unfold class_matches. rewrite Hf. reflexivity.
Qed.

Lemma match_class_map cls f :
  (forall c, canonicalize (f c) = canonicalize c) ->
  forall n s,
    match_class true cls n (map_chars f s)
    = option_map (map_chars f) (match_class true cls n s).
Proof.
  intros Hf. induction n as [|n IH]; intros s; simpl; [reflexivity|].
  destruct s as [|c s]; simpl; [reflexivity|].
  rewrite (class_matches_canonical cls f Hf c).
  destruct (class_matches true cls c); [apply IH | reflexivity].
Qed.

Lemma match_sequence_map f :
  (forall c, canonicalize (f c) = canonicalize c) ->
  forall p s,
    match_sequence true p (map_chars f s)
    = option_map (map_chars f) (match_sequence true p s).
Proof.
  intros Hf. induction p as [|[cls n] p IH]; intros s; simpl; [reflexivity|].
  rewrite (match_class_map cls f Hf).
  destruct (match_class true cls n s) as [s1|]; simpl; [apply IH | reflexivity].
Qed.

Lemma isValidUUID_map f s :
  (forall c, canonicalize (f c) = canonicalize c) ->
  isValidUUID (map_chars f s) = isValidUUID s.
Proof.
  intros Hf. unfold isValidUUID, test.
  rewrite (match_sequence_map f Hf).
  destruct (match_sequence true uuid_pattern s) as [[|c rest]|]; reflexivity.
Qed.

(** X16.  Two strings that differ in the case of their letters only get
    the same verdict from [isValidUUID]. *)
Theorem isValidUUID_ignores_case s t :
  map_chars canonicalize s = map_chars canonicalize t ->
  isValidUUID s = isValidUUID t.
Proof.
  intros H.
  rewrite <- (isValidUUID_map canonicalize s canonicalize_twice).
  rewrite <- (isValidUUID_map canonicalize t canonicalize_twice).
  rewrite H. reflexivity.
Qed.

(** X17.  [notNull] turns down [null] and nothing else, [isDefined] turns
    down [undefined] and nothing else; so [null] counts as defined,
    [undefined] as not null, and only both checks together rule out the
    two. *)
Theorem null_and_undefined_are_told_apart v :
  (notNull v = false <-> v = js_null) /\
  (isDefined v = false <-> v = js_undefined) /\
  (notNull v && isDefined v = false <-> v = js_null \/ v = js_undefined).
Proof.
  destruct v; simpl; repeat split; intros H;
    try discriminate; try reflexivity; auto;
    destruct H as [H|H]; discriminate || reflexivity.
Qed.

(** ** Further runs on the reference engine *)

Lemma createOffer_while_answering :
  (exists c1,
     Browser.createOffer None (connection offered)
       = (Err InvalidStateError, c1) /\
     snd (fst (createOffer None offered)) = with_connection offered c1 /\
     snd (createOffer None offered) = [call_createOffer None]) \/
  (exists sdp c1 c2,
     Browser.createOffer None (connection offered) = (Ok sdp, c1) /\
     Browser.setLocalDescription sdp c1 = (Err InvalidStateError, c2) /\
     snd (fst (createOffer None offered)) = with_connection offered c2 /\
     snd (createOffer None offered)
       = [call_createOffer None; call_setLocalDescription sdp]).
Proof.
  exact (@createOffer_rejects_with_the_engine_error Browser.engine
           offered None InvalidStateError
           (snd (fst (createOffer None offered)))
           (snd (createOffer None offered)) eq_refl).
Defined.

Lemma createAnswer_on_an_offerer :
  pc_signalingState Browser.engine
    (connection (snd (fst (createAnswer (Some remote_answer) offering))))
    = stable /\
  Browser.remoteDescription
    (connection (snd (fst (createAnswer (Some remote_answer) offering))))
    = Some remote_answer /\
  ((exists c1,
      Browser.setRemoteDescription (Some remote_answer) (connection offering)
        = (Err InvalidStateError, c1) /\
      snd (fst (createAnswer (Some remote_answer) offering))
        = with_connection offering c1 /\
      snd (createAnswer (Some remote_answer) offering)
        = [call_setRemoteDescription (Some remote_answer)]) \/
   (exists c1 c2,
      Browser.setRemoteDescription (Some remote_answer) (connection offering)
        = (Ok tt, c1) /\
      Browser.createAnswer c1 = (Err InvalidStateError, c2) /\
      snd (fst (createAnswer (Some remote_answer) offering))
        = with_connection offering c2 /\
      snd (createAnswer (Some remote_answer) offering)
        = [call_setRemoteDescription (Some remote_answer);
           call_createAnswer]) \/
   (exists c1 sdp c2 c3,
      Browser.setRemoteDescription (Some remote_answer) (connection offering)
        = (Ok tt, c1) /\
      Browser.createAnswer c1 = (Ok sdp, c2) /\
      Browser.setLocalDescription sdp c2 = (Err InvalidStateError, c3) /\
      snd (fst (createAnswer (Some remote_answer) offering))
        = with_connection offering c3 /\
      snd (createAnswer (Some remote_answer) offering)
        = [call_setRemoteDescription (Some remote_answer); call_createAnswer;
           call_setLocalDescription sdp])).
Proof.
  split; [reflexivity|]. split; [reflexivity|].
  exact (@createAnswer_rejects_where_the_engine_stopped Browser.engine
           offering (Some remote_answer) InvalidStateError
           (snd (fst (createAnswer (Some remote_answer) offering)))
           (snd (createAnswer (Some remote_answer) offering)) eq_refl).
Defined.

Lemma addCandidate_of_an_orphan_candidate :
  addCandidate orphan_candidate Browser.fresh
    = (Thrown TypeError, Browser.fresh, []).
Proof.
  exact (proj1 (proj2 (@addCandidate_throws_before_any_call Browser.engine
                         Browser.fresh orphan_candidate))
           TypeError eq_refl).
Defined.

Lemma setRemote_of_nothing :
  setRemote None Browser.fresh = (Thrown TypeError, Browser.fresh, []).
Proof.
  exact (proj1 (proj2 (@setRemote_throws_before_any_call Browser.engine
                         Browser.fresh None))
           TypeError eq_refl).
Defined.

Lemma tracks_nobody_listens_for :
  dispatch_all [ungrouped audio; ev_icecandidate None; ungrouped video] watcher
    = (watcher, []).
Proof.
  apply (@events_without_listener_are_lost Browser.engine).
  repeat constructor; intros s [H|[]]; discriminate H.
Defined.

Lemma events_before_the_first_subscription :
  dispatch_all [ungrouped audio; ev_signalingstatechange] Browser.fresh
    = (Browser.fresh, []).
Proof.
  exact (proj2 (proj2 (proj2
           (@new_adapter_is_silent Browser.engine {| iceServers := [] |}
              Browser.fresh eq_refl)))
           [ungrouped audio; ev_signalingstatechange]).
Defined.

Lemma viewing_keeps_its_stream :
  inboundStream (fst (play busy viewing)) = Some [audio].
Proof.
  exact (@inboundStream_is_set_once Browser.engine busy viewing [audio]
           eq_refl).
Defined.

Lemma busy_emits_the_stream_once :
  synthetic_count (snd (play busy Browser.fresh)) <= 1.
Proof.
  exact (proj1 (@synthetic_stream_is_emitted_at_most_once Browser.engine
                  busy Browser.fresh eq_refl)).
Defined.

Example busy_on_browser :
  snd (play busy Browser.fresh) =
    [(1, next (media_stream inboundStreamRef));
     (1, next (media_stream (remoteStream 7)));
     (2, next (media_stream (remoteStream 7)))] /\
  inboundStream (fst (play busy Browser.fresh)) = Some [audio] /\
  listeners (fst (play busy Browser.fresh)) = [(track, 1); (track, 2)].
Proof. repeat split. Qed.

Lemma uuid_in_groups :
  exists a b v c r d e,
    uuid = (a ++ "-" ++ b ++ "-" ++ String v c ++ "-" ++ String r d
              ++ "-" ++ e)%string /\
    String.length a = 8 /\ String.length b = 4 /\ String.length c = 3 /\
    String.length d = 3 /\ String.length e = 12 /\
    all_chars is_hex_digit (a ++ b ++ c ++ d ++ e)%string = true /\
    is_version v = true /\ is_variant r = true.
Proof. exact (proj1 (isValidUUID_iff uuid) eq_refl). Defined.

Lemma uuid_has_the_shape :
  String.length uuid = 36 /\
  String.get 8 uuid = Some "-"%char /\ String.get 13 uuid = Some "-"%char /\
  String.get 18 uuid = Some "-"%char /\ String.get 23 uuid = Some "-"%char /\
  (exists v, String.get 14 uuid = Some v /\ is_version v = true) /\
  (exists r, String.get 19 uuid = Some r /\ is_variant r = true).
Proof. exact (@isValidUUID_shape uuid eq_refl). Defined.

Lemma uuid_in_upper_case : isValidUUID uuid_upper = isValidUUID uuid.
Proof. exact (@isValidUUID_ignores_case uuid_upper uuid eq_refl). Defined.

Lemma null_is_not_undefined :
  notNull js_null = false /\ isDefined js_null = true.
Proof.
  split.
  - exact (proj2 (proj1 (null_and_undefined_are_told_apart js_null)) eq_refl).
  - reflexivity.
Defined.

Example isValidUUID_on_samples :
  isValidUUID uuid = true /\
  isValidUUID uuid_upper = true /\
  isValidUUID "00000000-0000-0000-0000-000000000000" = false /\
  isValidUUID "123e4567-e89b-72d3-a456-426614174000" = false /\
  isValidUUID "123e4567e89b42d3a456426614174000" = false /\
  isValidUUID "" = false.
Proof. repeat split. Qed.
